(** * Subscription intake guard: rate limiter, request handler, email validator

    Shallow embedding of
    - [sites/web/src/app/api/subscribe/route.ts] (the in-memory rate limiter
      [checkRateLimit], the spam heuristics and the [POST] handler), and
    - the email validation utility ([validateEmailAdvanced], its pattern
      tables and the helpers built on it) and the text truncation utility
      ([truncateText] and its variants).

    Conventions.
    - JavaScript numbers that hold counters and epoch milliseconds are
      modelled as [Z]; none of the values involved leaves the range in which a
      double represents integers exactly.
    - A JavaScript string is a [string]: one [ascii] per UTF-16 code unit,
      restricted to code units below 256.
    - [Date.now()] is an explicit argument [now].
    - The module-level [Map] is a [gmap string RateLimitRecord] threaded
      through every call. *)

From Stdlib Require Import ZArith Ascii String List Bool Lia QArith.
From Stdlib Require PrimFloat Uint63.
From stdpp Require Import gmap strings list pretty.

Local Open Scope Z_scope.

(** ** Regular expressions

    The patterns of the source use character classes, concatenation,
    alternation, [*], [+], [?] and counted repetition, with no
    back-references or look-around; [RegExp.prototype.test] is then
    membership of the subject (or of one of its substrings, when the pattern
    is not anchored) in a regular language.  Matching is by derivatives. *)

Module Regex.

Inductive re : Type :=
  | Emp
  | Eps
  | Chr (p : ascii -> bool)
  | Seq (a b : re)
  | Alt (a b : re)
  | Star (a : re).

Definition Plus (a : re) : re := Seq a (Star a).
Definition Opt (a : re) : re := Alt Eps a.

(** [a{n}] *)
Fixpoint Times (n : nat) (a : re) : re :=
  match n with
  | O => Eps
  | S n' => Seq a (Times n' a)
  end.

(** [a{0,n}] *)
Fixpoint UpTo (n : nat) (a : re) : re :=
  match n with
  | O => Eps
  | S n' => Opt (Seq a (UpTo n' a))
  end.

(** [a{n,}] *)
Definition AtLeast (n : nat) (a : re) : re := Seq (Times n a) (Star a).

Fixpoint Cat (rs : list re) : re :=
  match rs with
  | [] => Eps
  | [r] => r
  | r :: rs' => Seq r (Cat rs')
  end.

(** *** Character classes *)

Definition code (c : ascii) : N := N_of_ascii c.

Definition between (lo hi : ascii) (c : ascii) : bool :=
  ((code lo <=? code c) && (code c <=? code hi))%N.

Definition oneOf (cs : string) (c : ascii) : bool :=
  existsb (Ascii.eqb c) (list_ascii_of_string cs).

Definition isDigit : ascii -> bool := between "0" "9".
Definition isLower : ascii -> bool := between "a" "z".
Definition isUpper : ascii -> bool := between "A" "Z".
Definition isAlpha (c : ascii) : bool := isLower c || isUpper c.
Definition isAlnum (c : ascii) : bool := isAlpha c || isDigit c.

(** [\s] on code units below 256: TAB, LF, VT, FF, CR, SPACE and NBSP. *)
Definition isSpace (c : ascii) : bool :=
  ((9 <=? code c) && (code c <=? 13) || (code c =? 32) || (code c =? 160))%N.

(** Line terminators below 256, which [.] does not match. *)
Definition isLineTerminator (c : ascii) : bool :=
  ((code c =? 10) || (code c =? 13))%N.

(** [[^\s@]] *)
Definition notSpaceAt (c : ascii) : bool := negb (isSpace c || Ascii.eqb c "@").

Definition anyChar (c : ascii) : bool := true.
Definition dot (c : ascii) : bool := negb (isLineTerminator c).

(** ASCII case folding, used by the [i] flag: without the [u] flag a code
    unit above 127 never folds onto an ASCII letter. *)
Definition asciiLower (c : ascii) : ascii :=
  if isUpper c then ascii_of_N (code c + 32) else c.

Definition foldCase (p : ascii -> bool) (c : ascii) : bool :=
  existsb (fun d => p d && Ascii.eqb (asciiLower d) (asciiLower c))
          [c; asciiLower c; ascii_of_N (code (asciiLower c) - 32)].

(** [[a-z0-9]] under the [i] flag *)
Definition alnumI : ascii -> bool := foldCase (fun c => isLower c || isDigit c).

(** A literal, case-sensitive and under the [i] flag. *)
Definition Lit (s : string) : re :=
  Cat (map (fun c => Chr (Ascii.eqb c)) (list_ascii_of_string s)).
Definition LitI (s : string) : re :=
  Cat (map (fun c => Chr (foldCase (Ascii.eqb c))) (list_ascii_of_string s)).

(** *** Matching *)

Fixpoint nullable (r : re) : bool :=
  match r with
  | Emp => false
  | Eps => true
  | Chr _ => false
  | Seq a b => nullable a && nullable b
  | Alt a b => nullable a || nullable b
  | Star _ => true
  end.

Definition seq_ (a b : re) : re :=
  match a with
  | Emp => Emp
  | Eps => b
  | _ => Seq a b
  end.

Definition alt_ (a b : re) : re :=
  match a, b with
  | Emp, _ => b
  | _, Emp => a
  | _, _ => Alt a b
  end.

Fixpoint der (c : ascii) (r : re) : re :=
  match r with
  | Emp => Emp
  | Eps => Emp
  | Chr p => if p c then Eps else Emp
  | Seq a b =>
      alt_ (seq_ (der c a) b) (if nullable a then der c b else Emp)
  | Alt a b => alt_ (der c a) (der c b)
  | Star a => seq_ (der c a) (Star a)
  end.

Fixpoint matches (r : re) (s : list ascii) : bool :=
  match s with
  | [] => nullable r
  | c :: s' => matches (der c r) s'
  end.

(** [/^r$/.test(s)] *)
Definition testWhole (r : re) (s : string) : bool :=
  matches r (list_ascii_of_string s).

(** [/r/.test(s)]: some substring matches. *)
Definition testSearch (r : re) (s : string) : bool :=
  matches (Cat [Star (Chr anyChar); r; Star (Chr anyChar)]) (list_ascii_of_string s).

(** [/^r/.test(s)] and [/r$/.test(s)] *)
Definition testPrefix (r : re) (s : string) : bool :=
  matches (Seq r (Star (Chr anyChar))) (list_ascii_of_string s).
Definition testSuffix (r : re) (s : string) : bool :=
  matches (Seq (Star (Chr anyChar)) r) (list_ascii_of_string s).

(** The language of a pattern. *)
Inductive lang : re -> list ascii -> Prop :=
  | lang_eps : lang Eps []
  | lang_chr p c : p c = true -> lang (Chr p) [c]
  | lang_seq a b s t : lang a s -> lang b t -> lang (Seq a b) (s ++ t)
  | lang_alt_l a b s : lang a s -> lang (Alt a b) s
  | lang_alt_r a b s : lang b s -> lang (Alt a b) s
  | lang_star_nil a : lang (Star a) []
  | lang_star_app a s t : lang a s -> lang (Star a) t -> lang (Star a) (s ++ t).

(** Every character test of the pattern implies [P]. *)
Fixpoint alphabet (P : ascii -> bool) (r : re) : Prop :=
  match r with
  | Emp | Eps => True
  | Chr p => forall c, p c = true -> P c = true
  | Seq a b | Alt a b => alphabet P a /\ alphabet P b
  | Star a => alphabet P a
  end.

(** Every string of the language holds the character [c] (a sufficient
    condition read off the shape of the pattern). *)
Fixpoint mustContain (c : ascii) (r : re) : Prop :=
  match r with
  | Emp => True
  | Eps => False
  | Chr p => forall x, p x = true -> x = c
  | Seq a b => mustContain c a \/ mustContain c b
  | Alt a b => mustContain c a /\ mustContain c b
  | Star _ => False
  end.

(** Every code unit below 256. *)
Definition allAscii : list ascii := map ascii_of_nat (seq 0 256).

(** No character test of the pattern tells [c] from [f c]. *)
Fixpoint invariantUnder (f : ascii -> ascii) (r : re) : Prop :=
  match r with
  | Emp | Eps => True
  | Chr p => forall c, p (f c) = p c
  | Seq a b | Alt a b => invariantUnder f a /\ invariantUnder f b
  | Star a => invariantUnder f a
  end.

(** The same, decided by trying every code unit. *)
Fixpoint invariantUnderB (f : ascii -> ascii) (r : re) : bool :=
  match r with
  | Emp | Eps => true
  | Chr p => forallb (fun c => Bool.eqb (p (f c)) (p c)) allAscii
  | Seq a b | Alt a b => invariantUnderB f a && invariantUnderB f b
  | Star a => invariantUnderB f a
  end.

End Regex.

(** ** String operations of the JavaScript standard library *)

Module JsString.

Import Regex.

Definition chars : string -> list ascii := list_ascii_of_string.
Definition ofChars : list ascii -> string := string_of_list_ascii.

(** [s.length] *)
Definition jsLength (s : string) : Z := Z.of_nat (String.length s).

(** A string is truthy when it is not empty. *)
Definition truthy (s : string) : bool := negb (String.eqb s "").

(** An optional property: [undefined] is falsy. *)
Definition truthyOpt (o : option string) : bool :=
  match o with
  | Some s => truthy s
  | None => false
  end.

Fixpoint dropSpace (l : list ascii) : list ascii :=
  match l with
  | c :: l' => if isSpace c then dropSpace l' else l
  | [] => []
  end.

(** [s.trim()] *)
Definition trim (s : string) : string :=
  ofChars (rev (dropSpace (rev (dropSpace (chars s))))).

(** [toLowerCase] on one code unit below 256: the letters A-Z and the
    Latin-1 capitals 192-222 other than the multiplication sign. *)
Definition lowerChar (c : ascii) : ascii :=
  if (isUpper c
      || ((192 <=? code c) && (code c <=? 222) && negb (code c =? 215)))%N
  then ascii_of_N (code c + 32) else c.

(** [s.toLowerCase()] on strings of code units below 256, where it maps one
    code unit to one code unit.  Beyond that range the JavaScript function
    can lengthen a string (U+0130 becomes two code units); such strings are
    outside this model, and no property below is stated for them. *)
Definition toLowerCase (s : string) : string :=
  ofChars (map lowerChar (chars s)).

(** [s.lastIndexOf(c)] for a one-character needle; [None] stands for -1. *)
Fixpoint lastIndexOfFrom (i : nat) (c : ascii) (l : list ascii) : option nat :=
  match l with
  | [] => None
  | d :: l' =>
      match lastIndexOfFrom (S i) c l' with
      | Some j => Some j
      | None => if Ascii.eqb d c then Some i else None
      end
  end.

Definition lastIndexOf (c : ascii) (s : string) : option nat :=
  lastIndexOfFrom 0 c (chars s).

(** [s.slice(0, i)] and [s.slice(i)] for [0 <= i]. *)
Definition sliceTo (i : nat) (s : string) : string := ofChars (take i (chars s)).
Definition sliceFrom (i : nat) (s : string) : string := ofChars (drop i (chars s)).

Fixpoint hasDoubleDot (l : list ascii) : bool :=
  match l with
  | c :: ((d :: _) as l') =>
      (Ascii.eqb c "." && Ascii.eqb d ".") || hasDoubleDot l'
  | _ => false
  end.

(** [s.includes('..')] *)
Definition includesDotDot (s : string) : bool := hasDoubleDot (chars s).

(** [s.startsWith(c)] and [s.endsWith(c)] for a one-character argument. *)
Definition startsWith (c : ascii) (s : string) : bool :=
  match chars s with
  | d :: _ => Ascii.eqb d c
  | [] => false
  end.
Definition endsWith (c : ascii) (s : string) : bool :=
  match rev (chars s) with
  | d :: _ => Ascii.eqb d c
  | [] => false
  end.

(** [xs.includes(s)] on an array of strings. *)
Definition includesStr (xs : list string) (s : string) : bool :=
  existsb (String.eqb s) xs.

End JsString.

(** ** The rate limiter *)

Module RateLimit.

Record RateLimitRecord : Type := mkRecord {
  count : Z;
  lastAttempt : Z
}.

Record RateLimitResult : Type := mkResult {
  limited : bool;
  remainingRequests : Z;
  resetTime : Z
}.

Abbreviation Cache := (gmap string RateLimitRecord).

(** [RATE_LIMIT] *)
Definition EMAIL_MAX_REQUESTS : Z := 1.
Definition EMAIL_WINDOW_MS : Z := 86400000.
Definition MIN_SUBMISSION_TIME_MS : Z := 2000.

Definition cleanupInterval : Z := 24 * 60 * 60 * 1000.

(** Body of the [setInterval] callback: every record whose last attempt is
    older than [cleanupInterval] is deleted. *)
Definition cleanup (now : Z) (cache : Cache) : Cache :=
  filter (fun kv => negb (cleanupInterval <? now - lastAttempt (snd kv)) = true) cache.

(** [checkRateLimit(cache, key, maxRequests, windowMs)].  The record found in
    the map is mutated in place and stored back under the same key, which is
    an insertion of the updated record. *)
Definition checkRateLimit (now : Z) (cache : Cache) (key : string)
    (maxRequests windowMs : Z) : RateLimitResult * Cache :=
  match cache !! key with
  | Some record =>
      if windowMs <? now - lastAttempt record then
        (mkResult false (maxRequests - 1) (now + windowMs),
         <[key := mkRecord 1 now]> cache)
      else
        let record' := mkRecord (count record + 1) now in
        (mkResult (maxRequests <? count record')
                  (Z.max 0 (maxRequests - count record'))
                  (lastAttempt record' + windowMs),
         <[key := record']> cache)
  | None =>
      (mkResult false (maxRequests - 1) (now + windowMs),
       <[key := mkRecord 1 now]> cache)
  end.

(** A sequence of calls: each call reads the clock and names its key. *)
Record Call : Type := mkCall {
  call_now : Z;
  call_key : string;
  call_max : Z;
  call_window : Z
}.

Definition doCall (cache : Cache) (c : Call) : RateLimitResult * Cache :=
  checkRateLimit (call_now c) cache (call_key c) (call_max c) (call_window c).

(** Runs the calls from left to right; returns the result of every call and
    the final table. *)
Fixpoint runCalls (cache : Cache) (cs : list Call) : list RateLimitResult * Cache :=
  match cs with
  | [] => ([], cache)
  | c :: cs' =>
      let '(r, cache') := doCall cache c in
      let '(rs, cache'') := runCalls cache' cs' in
      (r :: rs, cache'')
  end.

(** The clock never goes back along the sequence. *)
Fixpoint clockOrdered (cs : list Call) : Prop :=
  match cs with
  | [] => True
  | c :: cs' => Forall (fun c' => call_now c <= call_now c') cs' /\ clockOrdered cs'
  end.

(** Every stored record has been counted at least once. *)
Definition wfCache (cache : Cache) : Prop :=
  forall k r, cache !! k = Some r -> 1 <= count r.

(** No stored record is stamped later than [t]. *)
Definition stampedBefore (t : Z) (cache : Cache) : Prop :=
  forall k r, cache !! k = Some r -> lastAttempt r <= t.

(** Every call of the sequence on key [k] arrives no later than its window
    after the previous attempt on [k], the first of them after [last]. *)
Fixpoint withinWindow (k : string) (last : Z) (cs : list Call) : Prop :=
  match cs with
  | [] => True
  | c :: cs' =>
      if decide (call_key c = k) then
        call_now c - last <= call_window c /\ withinWindow k (call_now c) cs'
      else withinWindow k last cs'
  end.

(** The number of calls on key [k]. *)
Definition callsOn (k : string) (cs : list Call) : Z :=
  Z.of_nat (length (filter (fun c => call_key c = k) cs)).

(** The calls on key [k] use the policy [maxRequests = 1] with window [w]. *)
Definition singleSlot (k : string) (w : Z) (cs : list Call) : Prop :=
  Forall (fun c => call_key c = k -> call_max c = 1 /\ call_window c = w) cs.

End RateLimit.

(** ** The subscription endpoint: [POST /api/subscribe] *)

Module Subscribe.

Import Regex JsString RateLimit.

(** [/^[^\s@]+@[^\s@]+\.[^\s@]+$/] *)
Definition EMAIL_REGEX : re :=
  Cat [Plus (Chr notSpaceAt); Lit "@"; Plus (Chr notSpaceAt); Lit ".";
       Plus (Chr notSpaceAt)].

(** [SPAM_EMAIL_PATTERNS]; none of them is anchored. *)
Definition SPAM_EMAIL_PATTERNS : list re :=
  [ LitI "test@test";
    LitI "example@";
    Seq (AtLeast 8 (Chr isDigit)) (LitI "@");
    Seq (LitI "@") (Alt (LitI "example") (Alt (LitI "test") (Alt (LitI "temp") (LitI "fake"))));
    Seq (AtLeast 20 (Chr alnumI)) (LitI "@") ].

(** [[a-zA-Z\s'-]] *)
Definition nameChar (c : ascii) : bool := isAlpha c || isSpace c || oneOf "'-" c.

(** [/^[a-zA-Z\s'-]{0,50}$/] *)
Definition NAME_REGEX : re := UpTo 50 (Chr nameChar).

(** [SPAM_EMAIL_PATTERNS.some((pattern) => pattern.test(email))] *)
Definition isSpamEmail (email : string) : bool :=
  existsb (fun pattern => testSearch pattern email) SPAM_EMAIL_PATTERNS.

(** The JSON body after destructuring.  A property of the request interface
    is a string (a number for [submissionTime]) or is missing, in which case
    the destructured variable is [undefined]; bodies that carry values of
    other types under these names are outside the model. *)
Record Body : Type := mkBody {
  email : option string;
  name : option string;
  interests : option string;
  website : option string;
  submissionTime : option Z
}.

(** [x < bound] where [x] is a number or [undefined]: [undefined] converts
    to NaN and every comparison with NaN is false. *)
Definition ltNumber (x : option Z) (bound : Z) : bool :=
  match x with
  | Some n => n <? bound
  | None => false
  end.

Inductive ResponseBody : Type :=
  | Success                     (* { success: true } *)
  | Error (message : string).   (* { error: message } *)

Record Response : Type := mkResponse {
  body : ResponseBody;
  status : Z
}.

(** The payload sent to the provider. *)
Record Fields : Type := mkFields {
  f_name : option string;
  f_interests : option string
}.

Record SubscriberData : Type := mkSubscriber {
  sd_email : string;
  sd_fields : option Fields
}.

(** One [fetch] to the provider: URL, [Authorization] header and the payload
    that is serialised into the request body. *)
Record UpstreamCall : Type := mkUpstreamCall {
  uc_url : string;
  uc_authorization : string;
  uc_payload : SubscriberData
}.

(** The value found under [message] in the provider's body, as far as the
    handler looks at it.  A string is kept as it is.  Any other JSON value
    (a number, a boolean, [null], an array, an object) is given by the two
    things the handler uses of it: whether it is truthy, and the text that
    the template literal [`Subscription failed: ${errorMessage}`] makes of
    it; the number 42 is [MsgOther true "42"], an object is
    [MsgOther true "[object Object]"], [null] is [MsgOther false "null"]. *)
Inductive MessageValue : Type :=
  | MsgString (s : string)
  | MsgOther (isTruthy : bool) (text : string).

(** What [await response.json()] produces.  [message] is the [message]
    property, [None] when there is none (also when the body is a JSON value
    other than an object or [null]); [errors] is [JSON.stringify(data.errors)]
    when [data.errors] is truthy. *)
Inductive UpstreamData : Type :=
  | Unparseable (detail : string)   (* response.json() rejects *)
  | JsonNull                        (* the body is the JSON value null *)
  | JsonData (message : option MessageValue) (errors : option string).

Inductive FetchOutcome : Type :=
  | NetworkFailure (detail : string)   (* fetch rejects *)
  | Responded (st : Z) (data : UpstreamData).

(** [response.ok] *)
Definition responseOk (st : Z) : bool := (200 <=? st) && (st <=? 299).

(** What a request finds around it: the clock, the environment variable
    [MAILERLITE_API_KEY] and the behaviour of the provider. *)
Record Env : Type := mkEnv {
  now : Z;
  apiKey : option string;
  fetch : UpstreamCall -> FetchOutcome
}.

Definition ok200 : Response := mkResponse Success 200.

Definition invalidEmail : Response :=
  mkResponse (Error "Please provide a valid email address") 400.

Definition invalidName : Response :=
  mkResponse
    (Error "Please provide a valid name (letters, spaces, hyphens, and apostrophes only)")
    400.

Definition rateLimited : Response :=
  mkResponse (Error "This email address has already been submitted recently.") 429.

Definition notConfigured : Response :=
  mkResponse
    (Error "Newsletter service not configured. Please add MAILERLITE_API_KEY to .env.local")
    500.

Definition networkError : Response :=
  mkResponse (Error "Network error. Please try again later.") 500.

Definition badRequest : Response :=
  mkResponse (Error "Failed to process request") 400.

(** Construction of [subscriberData]. *)
Definition buildSubscriber (email : string) (name interests : option string)
    : SubscriberData :=
  let fields1 :=
    match name with
    | Some n => if truthy n && negb (String.eqb (trim n) "")
                then Some (mkFields (Some n) None) else None
    | None => None
    end in
  let fields2 :=
    match interests with
    | Some i =>
        if truthy i && negb (String.eqb i "") then
          Some (mkFields (match fields1 with Some f => f_name f | None => None end)
                         (Some i))
        else fields1
    | None => fields1
    end in
  mkSubscriber email fields2.

(** Truthiness of the value under [message]. *)
Definition messageTruthy (v : MessageValue) : bool :=
  match v with
  | MsgString s => truthy s
  | MsgOther t _ => t
  end.

(** The value under [message] inside a template literal. *)
Definition messageText (v : MessageValue) : string :=
  match v with
  | MsgString s => s
  | MsgOther _ s => s
  end.

(** [data && data.message], when truthy, as the template literal prints it. *)
Definition dataMessage (data : UpstreamData) : option string :=
  match data with
  | JsonData (Some v) _ => if messageTruthy v then Some (messageText v) else None
  | _ => None
  end.

(** The statuses for which a [Response] carries no body. *)
Definition nullBodyStatus (st : Z) : bool :=
  (st =? 101) || (st =? 103) || (st =? 204) || (st =? 205) || (st =? 304).

(** [NextResponse.json(body, { status })] builds a [Response] with a JSON
    body.  Construction throws a RangeError unless the status lies in
    200..599 and a TypeError for a null-body status; [None] is the
    exception. *)
Definition jsonResponse (body : ResponseBody) (st : Z) : option Response :=
  if (200 <=? st) && (st <=? 599) && negb (nullBodyStatus st)
  then Some (mkResponse body st)
  else None.

(** [data.errors ? JSON.stringify(data.errors) : 'Validation error']; reading
    a property of [null] throws, which is the outer [None]. *)
Definition validationText (data : UpstreamData) : option string :=
  match data with
  | JsonData _ (Some e) => Some e
  | JsonData _ None => Some "Validation error"
  | Unparseable _ => Some "Validation error"
  | JsonNull => None
  end.

(** The outcome of the inner [try] once [fetch] has answered; [None] stands
    for an exception, which the enclosing [catch (fetchError)] receives: one
    thrown by reading [data.errors] of [null], or by [NextResponse.json] for
    a status it cannot carry. *)
Definition mapUpstream (st : Z) (parsed : UpstreamData) : option Response :=
  let data :=
    match parsed with
    | Unparseable _ => JsonData (Some (MsgString "Failed to parse response")) None
    | d => d
    end in
  if negb (responseOk st) then
    let errorMessage :=
      match dataMessage data with
      | Some m => Some m
      | None =>
          if st =? 401 then Some "Invalid API key"
          else if st =? 429 then Some "Rate limit exceeded"
          else if st =? 422 then validationText data
          else Some "Unknown error"
      end in
    match errorMessage with
    | Some m => jsonResponse (Error ("Subscription failed: " ++ m)) st
    | None => None
    end
  else Some ok200.

(** The handler.  It returns the response, the rate-limit table it leaves
    behind and the calls made to the provider.  The request is [None] when
    [req.json()] rejects.  Server-side logging is not modelled. *)
Definition POST (env : Env) (cache : Cache) (req : option Body)
    : Response * Cache * list UpstreamCall :=
  match req with
  | None => (badRequest, cache, [])
  | Some b =>
      (* 1. honeypot *)
      if truthyOpt (website b) then (ok200, cache, [])
      (* 2. submission time *)
      else if ltNumber (submissionTime b) MIN_SUBMISSION_TIME_MS then (ok200, cache, [])
      else
        match email b with
        | None => (invalidEmail, cache, [])
        | Some e =>
            (* 3. email format *)
            if negb (truthy e) || negb (testWhole EMAIL_REGEX e) then
              (invalidEmail, cache, [])
            (* 4. spam patterns *)
            else if isSpamEmail e then (ok200, cache, [])
            (* 5. name *)
            else if truthyOpt (name b)
                    && negb (testWhole NAME_REGEX (default "" (name b))) then
              (invalidName, cache, [])
            else
              (* 7. rate limit *)
              let '(emailLimitResult, cache') :=
                checkRateLimit (now env) cache e EMAIL_MAX_REQUESTS EMAIL_WINDOW_MS in
              if limited emailLimitResult then (rateLimited, cache', [])
              else if negb (truthyOpt (apiKey env)) then (notConfigured, cache', [])
              else
                let call :=
                  mkUpstreamCall "https://connect.mailerlite.com/api/subscribers"
                    ("Bearer " ++ default "" (apiKey env))
                    (buildSubscriber e (name b) (interests b)) in
                match fetch env call with
                | NetworkFailure _ => (networkError, cache', [call])
                | Responded st parsed =>
                    match mapUpstream st parsed with
                    | Some resp => (resp, cache', [call])
                    | None => (networkError, cache', [call])
                    end
                end
        end
  end.

(** The email of a request that gets past steps 1 to 5 of the handler and
    therefore reaches the rate limiter. *)
Definition passesFilters (b : Body) : option string :=
  if truthyOpt (website b) then None
  else if ltNumber (submissionTime b) MIN_SUBMISSION_TIME_MS then None
  else
    match email b with
    | None => None
    | Some e =>
        if negb (truthy e) || negb (testWhole EMAIL_REGEX e) then None
        else if isSpamEmail e then None
        else if truthyOpt (name b)
                && negb (testWhole NAME_REGEX (default "" (name b))) then None
        else Some e
    end.

(** The call the handler makes to the provider for email [e] of body [b]. *)
Definition upstreamCall (key : string) (e : string) (b : Body) : UpstreamCall :=
  mkUpstreamCall "https://connect.mailerlite.com/api/subscribers"
    ("Bearer " ++ key) (buildSubscriber e (name b) (interests b)).

Definition response (out : Response * Cache * list UpstreamCall) : Response := out.1.1.
Definition table (out : Response * Cache * list UpstreamCall) : Cache := out.1.2.
Definition upstreamCalls (out : Response * Cache * list UpstreamCall)
    : list UpstreamCall := out.2.

Definition withSubmissionTime (t : option Z) (b : Body) : Body :=
  mkBody (email b) (name b) (interests b) (website b) t.

(** An environment for examples: the credential is configured and the
    provider accepts every subscriber. *)
Definition acceptingEnv (t : Z) : Env :=
  mkEnv t (Some "ml-key") (fun _ => Responded 201 (JsonData None None)).

End Subscribe.

(** ** The email validation utility *)

Module EmailValidator.

Import Regex JsString.

Inductive ValidationLevel : Type := basic | standard | strict | paranoid.

Definition levelName (l : ValidationLevel) : string :=
  match l with
  | basic => "basic"
  | standard => "standard"
  | strict => "strict"
  | paranoid => "paranoid"
  end.

Record DomainInfo : Type := mkDomain {
  dom_name : string;
  isCommon : bool
}.

Record EmailValidationResult : Type := mkValidation {
  isValid : bool;
  email : string;
  normalized : option string;
  level : ValidationLevel;
  errors : list string;
  warnings : list string;
  spamScore : Q;
  isDisposable : option bool;
  domain : option DomainInfo
}.

Record ValidateEmailOptions : Type := mkOptions {
  opt_level : ValidationLevel;
  checkDisposable : bool;
  detectSpam : bool;
  blockedDomains : list string;
  allowedDomains : list string;
  maxLength : Z
}.

(** The defaults of the destructuring in [validateEmailAdvanced]. *)
Definition defaultOptions : ValidateEmailOptions :=
  mkOptions standard false false [] [] 254.

(** The local-part class of the standard pattern. *)
Definition localStd (c : ascii) : bool := isAlnum c || oneOf ".!#$%&'*+/=?^_`{|}~-" c.

Definition alnumHyphen (c : ascii) : bool := isAlnum c || Ascii.eqb c "-".

(** [[a-zA-Z0-9](?:[a-zA-Z0-9-]{0,61}[a-zA-Z0-9])?] *)
Definition label : re :=
  Seq (Chr isAlnum) (Opt (Seq (UpTo 61 (Chr alnumHyphen)) (Chr isAlnum))).

(** [EMAIL_PATTERNS]; every pattern is anchored at both ends. *)
Definition EMAIL_PATTERNS (l : ValidationLevel) : re :=
  match l with
  | basic =>
      Cat [Plus (Chr notSpaceAt); Lit "@"; Plus (Chr notSpaceAt); Lit ".";
           Plus (Chr notSpaceAt)]
  | standard =>
      Cat [Plus (Chr localStd); Lit "@"; label; Star (Seq (Lit ".") label)]
  | strict =>
      Cat [Chr isAlnum; Star (Chr (fun c => isAlnum c || oneOf "._-" c));
           Chr isAlnum; Lit "@"; Chr isAlnum;
           UpTo 61 (Chr (fun c => isAlnum c || oneOf ".-" c)); Chr isAlnum;
           Lit "."; AtLeast 2 (Chr isAlpha)]
  | paranoid =>
      Cat [Chr isAlnum; UpTo 63 (Chr (fun c => isAlnum c || oneOf "._-" c));
           Lit "@"; Chr isAlnum;
           UpTo 253 (Chr (fun c => isAlnum c || oneOf ".-" c));
           Lit "."; AtLeast 2 (Chr isAlpha)]
  end.

(** How a pattern is anchored. *)
Inductive Anchoring : Type := Anywhere | Whole | AtEnd.

Definition testAnchored (p : Anchoring * re) (s : string) : bool :=
  match fst p with
  | Anywhere => testSearch (snd p) s
  | Whole => testWhole (snd p) s
  | AtEnd => testSuffix (snd p) s
  end.

(** [SPAM_PATTERNS] *)
Definition SPAM_PATTERNS : list (Anchoring * re) :=
  [ (Anywhere, LitI "test@test");
    (Anywhere, LitI "example@");
    (Anywhere, Seq (AtLeast 8 (Chr isDigit)) (LitI "@"));
    (Anywhere,
     Seq (LitI "@")
         (Alt (LitI "example") (Alt (LitI "test") (Alt (LitI "temp")
           (Alt (LitI "fake") (Alt (LitI "invalid") (LitI "localhost")))))));
    (Anywhere, Seq (AtLeast 20 (Chr alnumI)) (LitI "@"));
    (Whole, Cat [Plus (Chr alnumI); LitI "@"; Plus (Chr alnumI)]);
    (AtEnd, Cat [LitI "@"; Star (Chr dot); LitI ".local"]);
    (AtEnd, Cat [LitI "@"; Star (Chr dot); LitI ".test"]) ].

Definition DISPOSABLE_DOMAINS : gset string :=
  {[ "10minutemail.com"; "guerrillamail.com"; "mailinator.com"; "temp-mail.org";
     "throwaway.email"; "yopmail.com"; "1secmail.com"; "getnada.com";
     "mohmal.com"; "tempail.com" ]}.

Definition COMMON_DOMAINS : gset string :=
  {[ "gmail.com"; "yahoo.com"; "outlook.com"; "hotmail.com"; "icloud.com";
     "protonmail.com"; "aol.com"; "mail.com"; "yandex.com"; "zoho.com" ]}.

(** [domainPart.match(/\.([a-zA-Z]+)$/)]: the captured group, when the
    pattern matches.  The group holds letters only, so the dot it follows is
    the last dot of the subject. *)
Definition tldMatch (domainPart : string) : option string :=
  if testSuffix (Seq (Lit ".") (Plus (Chr isAlpha))) domainPart then
    match lastIndexOf "." domainPart with
    | Some i => Some (sliceFrom (S i) domainPart)
    | None => None
    end
  else None.

Definition isStrictLevel (l : ValidationLevel) : bool :=
  match l with
  | strict | paranoid => true
  | _ => false
  end.

Definition isParanoid (l : ValidationLevel) : bool :=
  match l with
  | paranoid => true
  | _ => false
  end.

(** [result.errors.push(msg); return result] *)
Definition reject (result : EmailValidationResult) (msg : string)
    : EmailValidationResult :=
  mkValidation (isValid result) (email result) (normalized result) (level result)
    (errors result ++ [msg]) (warnings result) (spamScore result)
    (isDisposable result) (domain result).

Definition warn (result : EmailValidationResult) (msg : string)
    : EmailValidationResult :=
  mkValidation (isValid result) (email result) (normalized result) (level result)
    (errors result) (warnings result ++ [msg]) (spamScore result)
    (isDisposable result) (domain result).

(** The number of spam patterns the address matches. *)
Definition spamIndicators (s : string) : nat :=
  length (filter (fun p => testAnchored p s = true) SPAM_PATTERNS).

(** [spamScore > 0.3].  The score is a multiple of 1/8, exactly
    representable as a double, and the double nearest to 0.3 lies strictly
    between 2/8 and 3/8, as 3/10 does. *)
Definition aboveSpamThreshold (score : Q) : bool := negb (Qle_bool score (3 # 10)).

(** [validateEmailAdvanced(email, options)]; [None] is [null] or
    [undefined]. *)
Definition validateEmailAdvanced (input : option string)
    (options : ValidateEmailOptions) : EmailValidationResult :=
  let lvl := opt_level options in
  let result0 :=
    mkValidation false (default "" input) None lvl [] [] 0%Q None None in
  match input with
  | None => reject result0 "Email cannot be null or undefined"
  | Some e =>
      let trimmedEmail := trim e in
      if String.eqb trimmedEmail "" then reject result0 "Email cannot be empty"
      else if maxLength options <? jsLength trimmedEmail then
        reject result0
          ("Email exceeds maximum length of " ++ pretty (maxLength options)
             ++ " characters")
      else
        let norm := toLowerCase trimmedEmail in
        let result1 :=
          mkValidation false trimmedEmail (Some norm) lvl [] [] 0%Q None None in
        if negb (testWhole (EMAIL_PATTERNS lvl) norm) then
          reject result1
            ("Email format is invalid (" ++ levelName lvl ++ " validation)")
        else
          match lastIndexOf "@" norm with
          | None => reject result1 "Email must contain @ symbol"
          | Some atIndex =>
              let localPart := sliceTo atIndex norm in
              let domainPart := sliceFrom (S atIndex) norm in
              let result2 :=
                mkValidation false trimmedEmail (Some norm) lvl [] [] 0%Q None
                  (Some (mkDomain domainPart
                           (bool_decide (domainPart ∈ COMMON_DOMAINS)))) in
              if jsLength localPart =? 0 then
                reject result2 "Email local part cannot be empty"
              else if 64 <? jsLength localPart then
                reject result2 "Email local part exceeds 64 character limit"
              else if jsLength domainPart =? 0 then
                reject result2 "Email domain cannot be empty"
              else if 253 <? jsLength domainPart then
                reject result2 "Email domain exceeds 253 character limit"
              else if includesDotDot norm then
                reject result2 "Email cannot contain consecutive dots"
              else if negb (length (allowedDomains options) =? 0)%nat
                      && negb (includesStr (allowedDomains options) domainPart) then
                reject result2 "Email domain is not in the allowed list"
              else if includesStr (blockedDomains options) domainPart then
                reject result2 "Email domain is blocked"
              else
                (* spam pattern detection *)
                let k := spamIndicators norm in
                let score : Q :=
                  if detectSpam options
                  then Z.of_nat k # Pos.of_nat (length SPAM_PATTERNS) else 0%Q in
                let result3 :=
                  let r := mkValidation false trimmedEmail (Some norm) lvl [] []
                             score None (domain result2) in
                  if detectSpam options && negb (Qle_bool score 0%Q)
                  then warn r ("Email matches " ++ pretty k ++ " spam patterns")
                  else r in
                if detectSpam options && aboveSpamThreshold score && isStrictLevel lvl
                then reject result3 "Email appears to be spam or test email"
                else
                  (* disposable domains *)
                  let disposable := bool_decide (domainPart ∈ DISPOSABLE_DOMAINS) in
                  let result4 :=
                    if checkDisposable options then
                      let r := mkValidation false trimmedEmail (Some norm) lvl
                                 (errors result3) (warnings result3) score
                                 (Some disposable) (domain result3) in
                      if disposable
                      then warn r "Email appears to be from a disposable email service"
                      else r
                    else result3 in
                  if checkDisposable options && disposable && isStrictLevel lvl
                  then reject result4 "Disposable email addresses are not allowed"
                  else if isStrictLevel lvl
                          && match tldMatch domainPart with
                             | Some tld => jsLength tld <? 2
                             | None => true
                             end
                  then reject result4 "Email domain must have a valid top-level domain"
                  else if isParanoid lvl
                          && (startsWith "." localPart || endsWith "." localPart)
                  then reject result4 "Email local part cannot start or end with a dot"
                  else if isParanoid lvl
                          && (startsWith "-" domainPart || endsWith "-" domainPart)
                  then reject result4 "Email domain cannot start or end with hyphen"
                  else
                    mkValidation true (email result4) (normalized result4)
                      (level result4) (errors result4) (warnings result4)
                      (spamScore result4) (isDisposable result4) (domain result4)
          end
  end.

(** [validateEmail(email, level)] *)
Definition validateEmail (input : option string) (lvl : ValidationLevel) : bool :=
  isValid (validateEmailAdvanced input (mkOptions lvl false false [] [] 254)).

(** The result of [validateEmailForAPI]. *)
Record ApiValidation : Type := mkApiValidation {
  api_isValid : bool;
  isSpam : bool;
  api_normalized : option string
}.

(** [validateEmailForAPI(email)]: standard level with spam detection.  The
    [normalized] property is spread into the result only when it is truthy. *)
Definition validateEmailForAPI (input : option string) : ApiValidation :=
  let result := validateEmailAdvanced input (mkOptions standard false true [] [] 254) in
  mkApiValidation (isValid result) (aboveSpamThreshold (spamScore result))
    (match normalized result with
     | Some n => if truthy n then Some n else None
     | None => None
     end).

(** [validateEmailLegacy(email)] *)
Definition validateEmailLegacy (e : string) : bool :=
  testWhole (Cat [Plus (Chr notSpaceAt); Lit "@"; Plus (Chr notSpaceAt); Lit ".";
                  Plus (Chr notSpaceAt)])
            (toLowerCase e).

(** The characters a domain matched by the standard pattern is made of. *)
Definition domainChar (c : ascii) : bool :=
  isAlnum c || Ascii.eqb c "-" || Ascii.eqb c ".".

(** The domain part of the standard pattern: [label(\.label)*]. *)
Definition standardDomain : re := Seq label (Star (Seq (Lit ".") label)).

End EmailValidator.

(** ** The text truncation utility

    Lengths and [maxLength] are integers.  The two comparisons of an index
    with a fraction of a length are made on binary64 floating-point numbers
    (the kernel's primitive floats), like the doubles of the source. *)

Module Truncate.

Import Regex JsString.

Record TruncateOptions : Type := mkTruncateOptions {
  maxLength : option Z;
  ellipsis : option string;
  wordBoundary : option bool;
  preserveSentences : option bool;
  separators : option (ascii -> bool)
}.

(** The second argument: a number (the legacy call) or an options object. *)
Inductive OptionsArg : Type :=
  | LegacyLength (n : Z)
  | Options (o : TruncateOptions).

(** [Required<TruncateOptions>].  [c_separators] is the verdict of
    [separators.test] on a string of one character, for a pattern without
    the [g] and [y] flags. *)
Record Config : Type := mkConfig {
  c_maxLength : Z;
  c_ellipsis : string;
  c_wordBoundary : bool;
  c_preserveSentences : bool;
  c_separators : ascii -> bool
}.

Inductive Outcome (A : Type) : Type :=
  | Returned (a : A)
  | Thrown (msg : string).
Arguments Returned {A} a.
Arguments Thrown {A} msg.

(** [/[\s\-–—,.;:!?]/] on code units below 256, where the two dashes do not
    occur. *)
Definition defaultSeparators (c : ascii) : bool := isSpace c || oneOf "-,.;:!?" c.

(** [/[.!?]/] *)
Definition sentenceEnder (c : ascii) : bool := oneOf ".!?" c.

(** The double that holds a length. *)
Definition toFloat (n : nat) : PrimFloat.float :=
  PrimFloat.of_uint63 (Uint63.of_Z (Z.of_nat n)).

(** The literals [0.7] and [0.5]: the doubles nearest to 7/10 and 1/2. *)
Definition f0_7 : PrimFloat.float := PrimFloat.div (toFloat 7) (toFloat 10).
Definition f0_5 : PrimFloat.float := PrimFloat.div (toFloat 1) (toFloat 2).

(** The [while] loop over [sentenceEnders.exec]: one more than the index of
    the last sentence ender, [None] when there is none (the source holds -1
    then, which fails [lastSentenceEnd > 0]). *)
Fixpoint lastSentenceEndFrom (i : nat) (l : list ascii) : option nat :=
  match l with
  | [] => None
  | c :: l' =>
      match lastSentenceEndFrom (S i) l' with
      | Some j => Some j
      | None => if sentenceEnder c then Some (S i) else None
      end
  end.

(** The [for] loop that looks for a separator from index [n - 1] down to 0;
    [None] stands for -1. *)
Fixpoint lastSeparatorBelow (sep : ascii -> bool) (l : list ascii) (n : nat)
    : option nat :=
  match n with
  | O => None
  | S i =>
      match l !! i with
      | Some c => if sep c then Some i else lastSeparatorBelow sep l i
      | None => lastSeparatorBelow sep l i
      end
  end.

(** [s.endsWith('.') || s.endsWith('!') || s.endsWith('?')] *)
Definition endsSentence (s : string) : bool :=
  endsWith "." s || endsWith "!" s || endsWith "?" s.

(** [truncateTextImpl(text, config)] *)
Definition truncateTextImpl (text : string) (config : Config) : string :=
  if jsLength text <=? c_maxLength config then text
  else
    let availableLength :=
      Z.to_nat (Z.max 0 (c_maxLength config - jsLength (c_ellipsis config))) in
    if (availableLength =? 0)%nat then
      sliceTo (Z.to_nat (c_maxLength config)) (c_ellipsis config)
    else
      let truncated := sliceTo availableLength text in
      let sentence :=
        if c_preserveSentences config then
          match lastSentenceEndFrom 0 (chars truncated) with
          | Some lastSentenceEnd =>
              if PrimFloat.ltb (toFloat lastSentenceEnd)
                   (PrimFloat.mul (toFloat (String.length truncated)) f0_7)
              then Some lastSentenceEnd else None
          | None => None
          end
        else None in
      match sentence with
      | Some lastSentenceEnd =>
          let truncated' := trim (sliceTo lastSentenceEnd truncated) in
          (truncated' ++ (if endsSentence truncated' then "" else c_ellipsis config))%string
      | None =>
          let truncated' :=
            if c_wordBoundary config
               && (Z.of_nat availableLength <? jsLength text) then
              match lastSeparatorBelow (c_separators config) (chars truncated)
                      availableLength with
              | Some lastSeparatorIndex =>
                  if PrimFloat.ltb (PrimFloat.mul (toFloat availableLength) f0_5)
                       (toFloat lastSeparatorIndex)
                  then sliceTo lastSeparatorIndex truncated else truncated
              | None => truncated
              end
            else truncated in
          (trim truncated' ++ c_ellipsis config)%string
      end.

(** The defaults of [fullConfig]. *)
Definition fullConfig (options : OptionsArg) : Config :=
  let config :=
    match options with
    | LegacyLength n => mkTruncateOptions (Some n) None None None None
    | Options o => o
    end in
  mkConfig (default 150 (maxLength config)) (default "..." (ellipsis config))
    (default true (wordBoundary config)) (default false (preserveSentences config))
    (default defaultSeparators (separators config)).

(** [truncateText(text, options)]; [None] is [null] or [undefined]. *)
Definition truncateText (text : option string) (options : OptionsArg)
    : Outcome string :=
  match text with
  | None => Returned ""
  | Some t =>
      let config := fullConfig options in
      if c_maxLength config <? 0 then Thrown "maxLength must be non-negative"
      else if c_maxLength config =? 0 then Returned ""
      else Returned (truncateTextImpl t config)
  end.

Record TruncateResult : Type := mkTruncateResult {
  text : string;
  wasTruncated : bool;
  originalLength : Z;
  finalLength : Z
}.

(** [truncateTextDetailed(text, options)] *)
Definition truncateTextDetailed (input : option string) (options : OptionsArg)
    : Outcome TruncateResult :=
  let originalText := default "" input in
  match truncateText (Some originalText) options with
  | Returned truncatedText =>
      Returned (mkTruncateResult truncatedText
                  (jsLength truncatedText <? jsLength originalText)
                  (jsLength originalText) (jsLength truncatedText))
  | Thrown msg => Thrown msg
  end.

(** [text.slice(0, end)] for an integer [end]: a negative [end] counts from
    the end of the string. *)
Definition sliceToZ (e : Z) (s : string) : string :=
  if e <? 0 then sliceTo (Z.to_nat (Z.max 0 (jsLength s + e))) s
  else sliceTo (Z.to_nat e) s.

(** [truncateTextLegacy(text, maxLength = 150)] *)
Definition truncateTextLegacy (t : string) (maxLen : option Z) : string :=
  let maxLength := default 150 maxLen in
  if jsLength t <=? maxLength then t
  else (trim (sliceToZ maxLength t) ++ "...")%string.

End Truncate.

(** * Properties *)

(** ** The rate limiter *)

Module RateLimitFacts.

Import RateLimit.

Lemma checkRateLimit_stores now cache key m w :
  exists r, (checkRateLimit now cache key m w).2 !! key = Some r
            /\ lastAttempt r = now.
Proof.
  unfold checkRateLimit.
  destruct (cache !! key) as [r|]; [destruct (w <? now - lastAttempt r)|];
    cbn; rewrite lookup_insert_eq; eauto.
Qed.

Lemma checkRateLimit_other now cache key m w k :
  k <> key -> (checkRateLimit now cache key m w).2 !! k = cache !! k.
Proof.
  intros Hne. unfold checkRateLimit.
  destruct (cache !! key) as [r|]; [destruct (w <? now - lastAttempt r)|];
    cbn; by rewrite lookup_insert_ne.
Qed.

(** What one call does to the record of its own key. *)
Lemma checkRateLimit_same now cache key m w :
  (checkRateLimit now cache key m w).2 !! key =
  Some match cache !! key with
       | Some r => if w <? now - lastAttempt r then mkRecord 1 now
                   else mkRecord (count r + 1) now
       | None => mkRecord 1 now
       end.
Proof.
  unfold checkRateLimit.
  destruct (cache !! key) as [r|]; [destruct (w <? now - lastAttempt r)|];
    cbn; by rewrite lookup_insert_eq.
Qed.

Lemma checkRateLimit_wf now cache key m w :
  wfCache cache -> wfCache (checkRateLimit now cache key m w).2.
Proof.
  intros Hwf k r. destruct (decide (k = key)) as [->|Hne].
  - rewrite checkRateLimit_same. intros [= <-].
    destruct (cache !! key) as [r0|] eqn:E; [|cbn; lia].
    destruct (w <? now - lastAttempt r0); cbn; [lia|].
    specialize (Hwf _ _ E). lia.
  - rewrite checkRateLimit_other by done. apply Hwf.
Qed.

Lemma checkRateLimit_stamped now cache key m w t :
  stampedBefore t cache -> t <= now ->
  stampedBefore now (checkRateLimit now cache key m w).2.
Proof.
  intros Hst Hle k r. destruct (decide (k = key)) as [->|Hne].
  - destruct (checkRateLimit_stores now cache key m w) as (r' & -> & Hr').
    intros [= <-]. lia.
  - rewrite checkRateLimit_other by done. intros E. specialize (Hst _ _ E). lia.
Qed.

Lemma runCalls_cons cache c cs :
  runCalls cache (c :: cs) =
  ((doCall cache c).1 :: (runCalls (doCall cache c).2 cs).1,
   (runCalls (doCall cache c).2 cs).2).
Proof.
  cbn [runCalls]. destruct (doCall cache c) as [r cache'].
  cbn. by destruct (runCalls cache' cs).
Qed.

Lemma runCalls_app cache cs1 cs2 :
  (runCalls cache (cs1 ++ cs2)).2 = (runCalls (runCalls cache cs1).2 cs2).2.
Proof.
  revert cache. induction cs1 as [|c cs1 IH]; intros cache; [done|].
  rewrite <- app_comm_cons, !runCalls_cons. cbn. apply IH.
Qed.

Lemma runCalls_wf cache cs : wfCache cache -> wfCache (runCalls cache cs).2.
Proof.
  revert cache. induction cs as [|c cs IH]; intros cache Hwf; [done|].
  rewrite runCalls_cons. cbn. apply IH, checkRateLimit_wf, Hwf.
Qed.

Lemma clockOrdered_app cs1 cs2 :
  clockOrdered (cs1 ++ cs2) ->
  clockOrdered cs1 /\ clockOrdered cs2 /\
  Forall (fun c1 => Forall (fun c2 => call_now c1 <= call_now c2) cs2) cs1.
Proof.
  induction cs1 as [|c cs1 IH]; cbn.
  - intros H. repeat split; [done|constructor].
  - intros [Hall Hord]. apply Forall_app in Hall as [H1 H2].
    destruct (IH Hord) as (Ha & Hb & Hc). repeat split; try done.
    constructor; done.
Qed.

(** Along a sequence whose clock never goes back, a stored record stays
    stored, its stamp does not decrease, and while every call on its key
    arrives within the window its count grows by one per call. *)
Lemma run_record cache cs k r t :
  stampedBefore t cache ->
  Forall (fun c => t <= call_now c) cs ->
  clockOrdered cs ->
  cache !! k = Some r ->
  exists r', (runCalls cache cs).2 !! k = Some r'
             /\ lastAttempt r <= lastAttempt r'
             /\ (withinWindow k (lastAttempt r) cs ->
                 count r' = count r + callsOn k cs).
Proof.
  revert cache r t. induction cs as [|c cs IH]; intros cache r t Hst Hall Hord Hk.
  - exists r. cbn. unfold callsOn. cbn. repeat split; [done|lia|intros; lia].
  - apply Forall_cons in Hall as [Hc Hall]. destruct Hord as [Hle Hord].
    rewrite runCalls_cons. cbn [snd].
    assert (Hst' : stampedBefore (call_now c) (doCall cache c).2)
      by (eapply checkRateLimit_stamped; eauto).
    destruct (decide (call_key c = k)) as [Heq|Hne].
    + pose proof (checkRateLimit_same (call_now c) cache (call_key c)
                    (call_max c) (call_window c)) as Hsame.
      rewrite Heq in Hsame. rewrite Hk in Hsame.
      edestruct (IH (doCall cache c).2) as (r' & Hr' & Hla & Hcnt);
        [exact Hst'|exact Hle|exact Hord| |].
      { unfold doCall. rewrite Heq. exact Hsame. }
      exists r'. split; [done|]. pose proof (Hst _ _ Hk) as Hrt.
      split.
      { destruct (call_window c <? call_now c - lastAttempt r); cbn in Hla; lia. }
      cbn [withinWindow]. rewrite decide_True by done. intros [Hw Hrest].
      unfold callsOn in *. rewrite filter_cons_True by done. cbn [length].
      destruct (call_window c <? call_now c - lastAttempt r) eqn:E;
        [apply Z.ltb_lt in E; lia|].
      cbn in Hcnt. specialize (Hcnt Hrest). lia.
    + edestruct (IH (doCall cache c).2 r) as (r' & Hr' & Hla & Hcnt);
        [exact Hst'|exact Hle|exact Hord| |].
      { unfold doCall. rewrite checkRateLimit_other by done. exact Hk. }
      exists r'. split; [done|]. split; [done|].
      cbn [withinWindow]. rewrite decide_False by done. intros Hrest.
      unfold callsOn in *. rewrite filter_cons_False by done. auto.
Qed.

Lemma run_stamped cache cs t :
  stampedBefore t cache ->
  Forall (fun c => call_now c <= t) cs ->
  stampedBefore t (runCalls cache cs).2.
Proof.
  revert cache. induction cs as [|c cs IH]; intros cache Hst Hall; [done|].
  apply Forall_cons in Hall as [Hc Hall]. rewrite runCalls_cons. cbn [snd].
  apply IH; [|done]. intros k r. unfold doCall.
  destruct (decide (k = call_key c)) as [->|Hne].
  - destruct (checkRateLimit_stores (call_now c) cache (call_key c)
                (call_max c) (call_window c)) as (r' & -> & Hr').
    intros [= <-]. lia.
  - rewrite checkRateLimit_other by done. apply Hst.
Qed.

(** Once key [k] has a record stamped [t0] or later, a call on [k] under the
    one-request policy is accepted only more than a window after [t0]. *)
Lemma accepted_after_stamp k w cs :
  forall cache r t0 (j : nat) cj rj,
    wfCache cache ->
    cache !! k = Some r -> t0 <= lastAttempt r ->
    singleSlot k w cs ->
    Forall (fun c => t0 <= call_now c) cs ->
    cs !! j = Some cj -> (runCalls cache cs).1 !! j = Some rj ->
    call_key cj = k -> limited rj = false ->
    w < call_now cj - t0.
Proof.
  induction cs as [|c cs IH]; intros cache r t0 j cj rj Hwf Hk Ht0 Hpol Hall Hj Hrj Hkey Hlim;
    [done|].
  apply Forall_cons in Hpol as [Hpc Hpol]. apply Forall_cons in Hall as [Hc Hall].
  rewrite runCalls_cons in Hrj. cbn [fst] in Hrj.
  destruct j as [|j].
  - cbn in Hj, Hrj. injection Hj as ->. injection Hrj as <-.
    destruct (Hpc Hkey) as [Hm Hw]. specialize (Hwf _ _ Hk).
    unfold doCall, checkRateLimit in Hlim. rewrite Hkey, Hk, Hm, Hw in Hlim.
    destruct (w <? call_now cj - lastAttempt r) eqn:E.
    + apply Z.ltb_lt in E. lia.
    + cbn in Hlim. apply Z.ltb_ge in Hlim. lia.
  - cbn in Hj, Hrj.
    assert (exists r', (doCall cache c).2 !! k = Some r' /\ t0 <= lastAttempt r')
      as (r' & Hk' & Ht0').
    { unfold doCall. destruct (decide (k = call_key c)) as [->|Hne].
      - destruct (checkRateLimit_stores (call_now c) cache (call_key c)
                    (call_max c) (call_window c)) as (r' & Hr' & Hla).
        exists r'. split; [done|lia].
      - exists r. by rewrite checkRateLimit_other. }
    eapply (IH (doCall cache c).2 r' t0 j cj rj); eauto.
    by apply checkRateLimit_wf.
Qed.

(** An accepted call on [k] comes more than a window after every earlier
    call on [k]. *)
Lemma accepted_after_earlier k w cs :
  forall cache (i j : nat) ci cj rj,
    wfCache cache ->
    clockOrdered cs ->
    singleSlot k w cs ->
    (i < j)%nat ->
    cs !! i = Some ci -> cs !! j = Some cj ->
    (runCalls cache cs).1 !! j = Some rj ->
    call_key ci = k -> call_key cj = k ->
    limited rj = false ->
    w < call_now cj - call_now ci.
Proof.
  induction cs as [|c cs IH];
    intros cache i j ci cj rj Hwf Hord Hpol Hij Hi Hj Hrj Hki Hkj Hlim; [done|].
  destruct Hord as [Hle Hord]. pose proof Hpol as Hpol0.
  apply Forall_cons in Hpol as [Hpc Hpol].
  rewrite runCalls_cons in Hrj. cbn [fst] in Hrj.
  destruct j as [|j]; [lia|]. cbn in Hj, Hrj.
  destruct i as [|i].
  - cbn in Hi. injection Hi as ->.
    destruct (checkRateLimit_stores (call_now ci) cache (call_key ci)
                (call_max ci) (call_window ci)) as (r' & Hr' & Hla).
    apply (accepted_after_stamp k w cs (doCall cache ci).2 r' (call_now ci) j cj rj);
      try done.
    + by apply checkRateLimit_wf.
    + unfold doCall. by rewrite <- Hki.
    + lia.
  - cbn in Hi.
    apply (IH (doCall cache c).2 i j ci cj rj); try done.
    + by apply checkRateLimit_wf.
    + lia.
Qed.

(** A second call on the same key within the window is limited under the
    one-request policy, whatever the first call answered. *)
Lemma retry_limited cache key m w now1 now2 :
  wfCache cache ->
  now2 - now1 <= w ->
  limited (checkRateLimit now2 (checkRateLimit now1 cache key m w).2 key 1 w).1 = true.
Proof.
  intros Hwf Hnear.
  pose proof (checkRateLimit_same now1 cache key m w) as Hsame.
  pose proof (checkRateLimit_wf now1 cache key m w Hwf) as Hwf'.
  destruct ((checkRateLimit now1 cache key m w).2 !! key) as [r|] eqn:E; [|done].
  specialize (Hwf' _ _ E).
  assert (Hla : lastAttempt r = now1).
  { injection Hsame as ->. destruct (cache !! key) as [r0|]; [|done].
    by destruct (w <? now1 - lastAttempt r0). }
  unfold checkRateLimit at 1. rewrite E, Hla.
  destruct (w <? now2 - now1) eqn:E2; [apply Z.ltb_lt in E2; lia|].
  cbn. apply Z.ltb_lt. lia.
Qed.

(** The periodic sweep only removes records. *)
Lemma cleanup_wf now cache : wfCache cache -> wfCache (cleanup now cache).
Proof.
  intros Hwf k r Hk. unfold cleanup in Hk.
  apply map_lookup_filter_Some in Hk as [Hk _]. by apply (Hwf k).
Qed.

Lemma wfCache_empty : wfCache ∅.
Proof. intros k r. by rewrite lookup_empty. Qed.

Lemma stampedBefore_empty t : stampedBefore t ∅.
Proof. intros k r. by rewrite lookup_empty. Qed.

(** C1. On a table with no record for the key, two calls with
    [maxRequests = 1], the second no later than [windowMs] after the first,
    answer [limited = false] and then [limited = true]. *)
Theorem checkRateLimit_twice (cache : Cache) (key : string) (windowMs now1 now2 : Z) :
  cache !! key = None ->
  now2 - now1 <= windowMs ->
  let first := checkRateLimit now1 cache key 1 windowMs in
  let second := checkRateLimit now2 first.2 key 1 windowMs in
  limited first.1 = false /\ limited second.1 = true.
Proof.
  intros Hfresh Hnear. cbn zeta.
  assert (E1 : checkRateLimit now1 cache key 1 windowMs =
     (mkResult false (1 - 1) (now1 + windowMs), <[key := mkRecord 1 now1]> cache)).
  { unfold checkRateLimit. by rewrite Hfresh. }
  rewrite E1. cbn [fst snd limited]. split; [done|].
  unfold checkRateLimit. rewrite lookup_insert_eq. cbn [lastAttempt count].
  destruct (windowMs <? now2 - now1) eqn:E; [apply Z.ltb_lt in E; lia|done].
Qed.

Lemma checkRateLimit_twice_witness :
  let first := checkRateLimit 1000 ∅ "new.user@gmail.com" 1 EMAIL_WINDOW_MS in
  let second := checkRateLimit 1500 first.2 "new.user@gmail.com" 1 EMAIL_WINDOW_MS in
  limited first.1 = false /\ limited second.1 = true.
Proof.
  apply (checkRateLimit_twice ∅ "new.user@gmail.com" EMAIL_WINDOW_MS 1000 1500).
  - apply lookup_empty.
  - unfold EMAIL_WINDOW_MS. lia.
Defined.

(** C5, as the specification states it, fails: a call that arrives after the
    window has expired replaces a record counted twice by one counted
    once. *)
Lemma count_decreases_on_reset :
  let k := "a@b.co" in
  let cs1 := [mkCall 0 k 1 EMAIL_WINDOW_MS; mkCall 1 k 1 EMAIL_WINDOW_MS] in
  let cs2 := [mkCall (EMAIL_WINDOW_MS + 2) k 1 EMAIL_WINDOW_MS] in
  clockOrdered (cs1 ++ cs2) /\
  exists r r',
    (runCalls ∅ cs1).2 !! k = Some r /\
    (runCalls ∅ (cs1 ++ cs2)).2 !! k = Some r' /\
    count r = 2 /\ count r' = 1 /\ ~ count r <= count r'.
Proof.
  cbn zeta. split.
  - cbn. unfold EMAIL_WINDOW_MS. repeat constructor; cbn; lia.
  - exists (mkRecord 2 1), (mkRecord 1 (EMAIL_WINDOW_MS + 2)).
    repeat split; try (vm_compute; reflexivity). cbn. lia.
Qed.

(** C5, amended.  Along a sequence of calls on a fresh table whose clock
    never goes back, the record of a key stays stored and its [lastAttempt]
    never decreases; its [count] grows by one per call on the key, hence does
    not decrease, as long as each of these calls arrives within its window
    of the previous attempt; a call on the key that arrives after the window
    has expired resets the record to [count = 1], stamped with the time of
    that call, and counting goes on from 1. *)
Theorem record_monotone (cs1 cs2 : list Call) (k : string) (r : RateLimitRecord) :
  clockOrdered (cs1 ++ cs2) ->
  (runCalls ∅ cs1).2 !! k = Some r ->
  exists r',
    (runCalls ∅ (cs1 ++ cs2)).2 !! k = Some r' /\
    lastAttempt r <= lastAttempt r' /\
    (withinWindow k (lastAttempt r) cs2 ->
     count r' = count r + callsOn k cs2 /\ count r <= count r') /\
    (forall c cs2', cs2 = c :: cs2' -> call_key c = k ->
       call_window c < call_now c - lastAttempt r ->
       (runCalls ∅ (cs1 ++ [c])).2 !! k = Some (mkRecord 1 (call_now c)) /\
       (withinWindow k (call_now c) cs2' -> count r' = 1 + callsOn k cs2')).
Proof.
  intros Hord Hk. rewrite runCalls_app.
  destruct (clockOrdered_app _ _ Hord) as (Ho1 & Ho2 & Hcross).
  destruct cs2 as [|c cs2].
  - exists r. cbn. unfold callsOn. cbn.
    split; [done|]. split; [lia|]. split; [lia|]. intros c cs2' Hnil. discriminate Hnil.
  - destruct Ho2 as [Hle Ho2'].
    assert (Hst : stampedBefore (call_now c) (runCalls ∅ cs1).2).
    { apply run_stamped; [apply stampedBefore_empty|].
      eapply Forall_impl; [exact Hcross|]. cbn. intros c1 Hc1.
      by apply Forall_cons in Hc1 as [? _]. }
    edestruct (run_record (runCalls ∅ cs1).2 (c :: cs2) k r (call_now c))
      as (r' & Hr' & Hla & Hcnt); [exact Hst| |split; done|exact Hk|].
    { constructor; [lia|done]. }
    exists r'. split; [done|]. split; [done|]. split.
    + intros Hw. specialize (Hcnt Hw). split; [done|]. unfold callsOn in Hcnt. lia.
    + intros c0 cs2' Hcons Hkey Hexp. injection Hcons as <- <-.
      assert (Hreset : (doCall (runCalls ∅ cs1).2 c).2 !! k
                       = Some (mkRecord 1 (call_now c))).
      { pose proof (checkRateLimit_same (call_now c) (runCalls ∅ cs1).2 (call_key c)
                      (call_max c) (call_window c)) as Hsame.
        rewrite Hkey in Hsame. rewrite Hk in Hsame.
        apply Z.ltb_lt in Hexp. rewrite Hexp in Hsame.
        unfold doCall. rewrite Hkey. exact Hsame. }
      split.
      * rewrite runCalls_app, runCalls_cons. exact Hreset.
      * intros Hw. rewrite runCalls_cons in Hr'. cbn [snd] in Hr'.
        edestruct (run_record (doCall (runCalls ∅ cs1).2 c).2 cs2 k
                     (mkRecord 1 (call_now c)) (call_now c))
          as (r'' & Hr'' & _ & Hcnt'');
          [eapply checkRateLimit_stamped; [exact Hst|lia]
          |exact Hle|exact Ho2'|exact Hreset|].
        rewrite Hr'' in Hr'. injection Hr' as <-.
        specialize (Hcnt'' Hw). cbn [count] in Hcnt''. exact Hcnt''.
Qed.

Lemma record_monotone_witness :
  let k := "a@b.co" in
  let first := mkCall 0 k 1 EMAIL_WINDOW_MS in
  let near := [mkCall 5 k 1 EMAIL_WINDOW_MS; mkCall 9 "c@d.co" 1 EMAIL_WINDOW_MS] in
  let late := mkCall (EMAIL_WINDOW_MS + 5) k 1 EMAIL_WINDOW_MS in
  let after := [mkCall (EMAIL_WINDOW_MS + 9) k 1 EMAIL_WINDOW_MS] in
  (exists r',
     (runCalls ∅ ([first] ++ near)).2 !! k = Some r' /\
     0 <= lastAttempt r' /\ count r' = 1 + callsOn k near /\ 1 <= count r') /\
  (exists r',
     (runCalls ∅ ([first] ++ late :: after)).2 !! k = Some r' /\
     0 <= lastAttempt r' /\
     (runCalls ∅ ([first] ++ [late])).2 !! k = Some (mkRecord 1 (EMAIL_WINDOW_MS + 5)) /\
     count r' = 1 + callsOn k after).
Proof.
  cbn zeta. split.
  - destruct (record_monotone
                [mkCall 0 "a@b.co" 1 EMAIL_WINDOW_MS]
                [mkCall 5 "a@b.co" 1 EMAIL_WINDOW_MS; mkCall 9 "c@d.co" 1 EMAIL_WINDOW_MS]
                "a@b.co" (mkRecord 1 0)) as (r' & Hr' & Hla & Hnear & _).
    + cbn. repeat constructor; cbn; lia.
    + vm_compute. reflexivity.
    + exists r'. split; [exact Hr'|]. split; [exact Hla|]. apply Hnear.
      cbn. unfold EMAIL_WINDOW_MS. repeat split; lia.
  - destruct (record_monotone
                [mkCall 0 "a@b.co" 1 EMAIL_WINDOW_MS]
                [mkCall (EMAIL_WINDOW_MS + 5) "a@b.co" 1 EMAIL_WINDOW_MS;
                 mkCall (EMAIL_WINDOW_MS + 9) "a@b.co" 1 EMAIL_WINDOW_MS]
                "a@b.co" (mkRecord 1 0)) as (r' & Hr' & Hla & _ & Hlate).
    + cbn. unfold EMAIL_WINDOW_MS. repeat constructor; cbn; lia.
    + vm_compute. reflexivity.
    + exists r'. split; [exact Hr'|]. split; [exact Hla|].
      destruct (Hlate (mkCall (EMAIL_WINDOW_MS + 5) "a@b.co" 1 EMAIL_WINDOW_MS)
                  [mkCall (EMAIL_WINDOW_MS + 9) "a@b.co" 1 EMAIL_WINDOW_MS])
        as [Hone Hcnt]; [reflexivity|reflexivity|cbn; lia|].
      split; [exact Hone|]. apply Hcnt.
      cbn. unfold EMAIL_WINDOW_MS. repeat split; lia.
Defined.

(** C6, as the specification states it, fails: under the policy of one
    request per 24 hours and a clock that never goes back, no sequence of
    calls on one key holds two accepted calls less than a window apart. *)
Lemma no_burst_inside_window :
  ~ exists (k : string) (cs : list Call) (i j : nat) ci cj ri rj,
      Forall (fun c => call_key c = k /\ call_max c = EMAIL_MAX_REQUESTS
                       /\ call_window c = EMAIL_WINDOW_MS) cs /\
      clockOrdered cs /\
      (i < j)%nat /\
      cs !! i = Some ci /\ cs !! j = Some cj /\
      (runCalls ∅ cs).1 !! i = Some ri /\ (runCalls ∅ cs).1 !! j = Some rj /\
      limited ri = false /\ limited rj = false /\
      call_now cj - call_now ci < EMAIL_WINDOW_MS.
Proof.
  intros (k & cs & i & j & ci & cj & ri & rj & Hall & Hord & Hij & Hi & Hj
          & Hri & Hrj & Hli & Hlj & Hnear).
  assert (Hpol : singleSlot k EMAIL_WINDOW_MS cs).
  { eapply Forall_impl; [exact Hall|]. cbn. intros c (? & ? & ?) _. done. }
  assert (Hki : call_key ci = k).
  { apply list_elem_of_lookup_2 in Hi. rewrite Forall_forall in Hall.
    by destruct (Hall _ Hi). }
  assert (Hkj : call_key cj = k).
  { apply list_elem_of_lookup_2 in Hj. rewrite Forall_forall in Hall.
    by destruct (Hall _ Hj). }
  pose proof (accepted_after_earlier k EMAIL_WINDOW_MS cs ∅ i j ci cj rj
                wfCache_empty Hord Hpol Hij Hi Hj Hrj Hki Hkj Hlj).
  lia.
Qed.

(** C6, amended.  With [maxRequests = 1], on a table whose records have been
    counted at least once and with a clock that never goes back, two calls
    on the same key that both answer [limited = false] are more than
    [windowMs] apart. *)
Theorem accepted_calls_apart (k : string) (w : Z) (cache : Cache) (cs : list Call)
    (i j : nat) (ci cj : Call) (ri rj : RateLimitResult) :
  wfCache cache ->
  clockOrdered cs ->
  singleSlot k w cs ->
  (i < j)%nat ->
  cs !! i = Some ci -> cs !! j = Some cj ->
  (runCalls cache cs).1 !! i = Some ri -> (runCalls cache cs).1 !! j = Some rj ->
  call_key ci = k -> call_key cj = k ->
  limited ri = false -> limited rj = false ->
  w < call_now cj - call_now ci.
Proof.
  intros Hwf Hord Hpol Hij Hi Hj _ Hrj Hki Hkj _ Hlj.
  eapply accepted_after_earlier; eauto.
Qed.

Lemma accepted_calls_apart_witness :
  let k := "a@b.co" in
  let cs := [mkCall 0 k 1 EMAIL_WINDOW_MS; mkCall 7 k 1 EMAIL_WINDOW_MS;
             mkCall (EMAIL_WINDOW_MS + 8) k 1 EMAIL_WINDOW_MS] in
  (limited <$> (runCalls ∅ cs).1) = [false; true; false] /\
  EMAIL_WINDOW_MS < (EMAIL_WINDOW_MS + 8) - 0.
Proof.
  split; [vm_compute; reflexivity|].
  apply (accepted_calls_apart "a@b.co" EMAIL_WINDOW_MS ∅
           [mkCall 0 "a@b.co" 1 EMAIL_WINDOW_MS; mkCall 7 "a@b.co" 1 EMAIL_WINDOW_MS;
            mkCall (EMAIL_WINDOW_MS + 8) "a@b.co" 1 EMAIL_WINDOW_MS]
           0 2
           (mkCall 0 "a@b.co" 1 EMAIL_WINDOW_MS)
           (mkCall (EMAIL_WINDOW_MS + 8) "a@b.co" 1 EMAIL_WINDOW_MS)
           (mkResult false 0 EMAIL_WINDOW_MS)
           (mkResult false 0 (EMAIL_WINDOW_MS + 8 + EMAIL_WINDOW_MS))).
  - apply wfCache_empty.
  - cbn. unfold EMAIL_WINDOW_MS. repeat constructor; cbn; lia.
  - repeat constructor.
  - lia.
  - reflexivity.
  - reflexivity.
  - vm_compute. reflexivity.
  - vm_compute. reflexivity.
  - reflexivity.
  - reflexivity.
  - reflexivity.
  - reflexivity.
Defined.

End RateLimitFacts.

(** ** The subscription endpoint *)

Module SubscribeFacts.

Import Regex JsString RateLimit Subscribe.

(** The handler from the rate limiter on, for a request that passed the
    filters. *)
Lemma POST_after_filters env cache b e :
  passesFilters b = Some e ->
  POST env cache (Some b) =
    let cache' := (checkRateLimit (now env) cache e EMAIL_MAX_REQUESTS EMAIL_WINDOW_MS).2 in
    if limited (checkRateLimit (now env) cache e EMAIL_MAX_REQUESTS EMAIL_WINDOW_MS).1
    then (rateLimited, cache', [])
    else if negb (truthyOpt (apiKey env)) then (notConfigured, cache', [])
    else
      let call := upstreamCall (default "" (apiKey env)) e b in
      match fetch env call with
      | NetworkFailure _ => (networkError, cache', [call])
      | Responded st parsed =>
          match mapUpstream st parsed with
          | Some resp => (resp, cache', [call])
          | None => (networkError, cache', [call])
          end
      end.
Proof.
  unfold passesFilters, POST. intros H.
  destruct (truthyOpt (website b)); [done|].
  destruct (ltNumber (submissionTime b) MIN_SUBMISSION_TIME_MS); [done|].
  destruct (email b) as [e'|]; [|done].
  destruct (negb (truthy e') || negb (testWhole EMAIL_REGEX e')); [done|].
  destruct (isSpamEmail e'); [done|].
  destruct (truthyOpt (name b) && negb (testWhole NAME_REGEX (default "" (name b))));
    [done|].
  injection H as ->.
  destruct (checkRateLimit (now env) cache e EMAIL_MAX_REQUESTS EMAIL_WINDOW_MS)
    as [res cache'].
  reflexivity.
Qed.

(** A request stopped by the filters leaves the table alone and calls
    nobody. *)
Lemma POST_filtered env cache b :
  passesFilters b = None ->
  table (POST env cache (Some b)) = cache /\
  upstreamCalls (POST env cache (Some b)) = [] /\
  response (POST env cache (Some b)) <> rateLimited /\
  response (POST env cache (Some b)) <> notConfigured.
Proof.
  unfold passesFilters, POST. intros H.
  destruct (truthyOpt (website b)); [by repeat split|].
  destruct (ltNumber (submissionTime b) MIN_SUBMISSION_TIME_MS); [by repeat split|].
  destruct (email b) as [e'|]; [|by repeat split].
  destruct (negb (truthy e') || negb (testWhole EMAIL_REGEX e')); [by repeat split|].
  destruct (isSpamEmail e'); [by repeat split|].
  destruct (truthyOpt (name b) && negb (testWhole NAME_REGEX (default "" (name b))));
    [by repeat split|done].
Qed.

(** Two responses that differ in their message or status. *)
Ltac distinct :=
  unfold response, ok200, invalidEmail, invalidName, rateLimited, notConfigured,
    networkError, badRequest;
  cbn; discriminate.

(** [NextResponse.json] carries every status from 300 to 599 other than
    304. *)
Lemma jsonResponse_carried body st :
  responseOk st = false -> 200 <= st <= 599 -> st <> 304 ->
  jsonResponse body st = Some (mkResponse body st).
Proof.
  unfold responseOk, jsonResponse, nullBodyStatus. intros Hok Hrange Hne.
  assert (H300 : 300 <= st).
  { apply andb_false_iff in Hok as [Hok|Hok]; apply Z.leb_gt in Hok; lia. }
  replace (200 <=? st) with true by (symmetry; apply Z.leb_le; lia).
  replace (st <=? 599) with true by (symmetry; apply Z.leb_le; lia).
  replace (st =? 101) with false by (symmetry; apply Z.eqb_neq; lia).
  replace (st =? 103) with false by (symmetry; apply Z.eqb_neq; lia).
  replace (st =? 204) with false by (symmetry; apply Z.eqb_neq; lia).
  replace (st =? 205) with false by (symmetry; apply Z.eqb_neq; lia).
  replace (st =? 304) with false by (symmetry; apply Z.eqb_neq; lia).
  reflexivity.
Qed.

(** The answers the inner [try] can return: [{ success: true }] on a 2xx
    status, and otherwise an error that starts "Subscription failed: " and
    carries the provider's status. *)
Lemma mapUpstream_Some st parsed resp :
  mapUpstream st parsed = Some resp ->
  (responseOk st = true /\ resp = ok200) \/
  (responseOk st = false /\
   exists m, resp = mkResponse (Error ("Subscription failed: " ++ m)) st).
Proof.
  unfold mapUpstream. destruct (responseOk st); cbn [negb]; intros E.
  - injection E as <-. by left.
  - right. split; [done|].
    match type of E with
    | match ?x with _ => _ end = _ => destruct x as [msg|]; [|done]
    end.
    unfold jsonResponse in E.
    destruct ((200 <=? st) && (st <=? 599) && negb (nullBodyStatus st)); [|done].
    injection E as <-. by exists msg.
Qed.

(** A non-2xx status that [NextResponse.json] cannot carry makes the inner
    [try] throw, whatever the body holds. *)
Lemma mapUpstream_uncarried st parsed :
  responseOk st = false -> st < 200 \/ 599 < st \/ st = 304 ->
  mapUpstream st parsed = None.
Proof.
  intros Hok Hst. unfold mapUpstream. rewrite Hok. cbn [negb].
  match goal with
  | |- match ?x with _ => _ end = _ => destruct x as [msg|]; [|done]
  end.
  unfold jsonResponse, nullBodyStatus.
  destruct Hst as [Hst | [Hst | ->]]; [| |reflexivity].
  - replace (200 <=? st) with false by (symmetry; apply Z.leb_gt; lia). done.
  - replace (st <=? 599) with false by (symmetry; apply Z.leb_gt; lia).
    by rewrite andb_false_r.
Qed.

(** The sign-up scenario: a first submission is forwarded with the bare
    email as payload and answered 200 on the provider's 201; the same
    submission an hour later is answered 429. *)
Example signup_then_repeat :
  let b := mkBody (Some "new.user@gmail.com") None None (Some "") (Some 5000) in
  let out1 := POST (acceptingEnv 0) ∅ (Some b) in
  let out2 := POST (acceptingEnv 3600000) (table out1) (Some b) in
  response out1 = mkResponse Success 200 /\
  (uc_payload <$> upstreamCalls out1) = [mkSubscriber "new.user@gmail.com" None] /\
  status (response out2) = 429 /\
  upstreamCalls out2 = [].
Proof. cbn zeta. repeat split; vm_compute; reflexivity. Qed.

(** C3. A request whose honeypot field [website] is a non-empty string is
    answered 200 [{ success: true }] whatever its other fields hold; the
    rate-limit table is left as it was and the provider is not called. *)
Theorem honeypot_fabricated_success (env : Env) (cache : Cache) (b : Body) (w : string) :
  website b = Some w -> w <> "" ->
  POST env cache (Some b) = (mkResponse Success 200, cache, []).
Proof.
  intros Hw Hne. unfold POST. rewrite Hw. cbn [truthyOpt]. unfold truthy.
  destruct (String.eqb_spec w ""); [done|reflexivity].
Qed.

Lemma honeypot_fabricated_success_witness :
  POST (acceptingEnv 0) ∅
       (Some (mkBody (Some "not an email") None None (Some "http://spam.example") (Some 9000)))
  = (mkResponse Success 200, ∅, []).
Proof.
  apply (honeypot_fabricated_success (acceptingEnv 0) ∅
           (mkBody (Some "not an email") None None (Some "http://spam.example") (Some 9000))
           "http://spam.example").
  - reflexivity.
  - discriminate.
Defined.

(** C7. With an empty honeypot and [submissionTime = 500], the handler
    answers 200 [{ success: true }] and the provider is never called. *)
Theorem too_fast_fabricated_success (env : Env) (cache : Cache) (b : Body) :
  truthyOpt (website b) = false ->
  submissionTime b = Some 500 ->
  response (POST env cache (Some b)) = mkResponse Success 200 /\
  upstreamCalls (POST env cache (Some b)) = [].
Proof.
  intros Hw Ht. unfold POST. rewrite Hw, Ht. cbn. done.
Qed.

Lemma too_fast_fabricated_success_witness :
  let b := mkBody (Some "new.user@gmail.com") None None (Some "") (Some 500) in
  response (POST (acceptingEnv 0) ∅ (Some b)) = mkResponse Success 200 /\
  upstreamCalls (POST (acceptingEnv 0) ∅ (Some b)) = [].
Proof.
  apply (too_fast_fabricated_success (acceptingEnv 0) ∅
           (mkBody (Some "new.user@gmail.com") None None (Some "") (Some 500)));
    reflexivity.
Defined.

(** C9. When [submissionTime] is missing and the honeypot is empty, the
    too-fast check does not trigger: the handler behaves as for any
    submission time that passes the check.  The request proceeds to email
    validation: a missing, empty or ill-formed email is answered 400 with
    the invalid-email error, the table untouched and nobody called; an
    email of valid format is never answered with that error, and a request
    that is valid otherwise, not rate-limited and served with a configured
    credential is forwarded to the provider. *)
Theorem missing_submissionTime_forwarded (env : Env) (cache : Cache) (b : Body) :
  submissionTime b = None ->
  truthyOpt (website b) = false ->
  (forall t, MIN_SUBMISSION_TIME_MS <= t ->
     POST env cache (Some b) = POST env cache (Some (withSubmissionTime (Some t) b))) /\
  (email b = None \/ email b = Some "" \/
   (exists e, email b = Some e /\ testWhole EMAIL_REGEX e = false) ->
   POST env cache (Some b)
   = (mkResponse (Error "Please provide a valid email address") 400, cache, [])) /\
  (forall e, email b = Some e -> truthy e = true -> testWhole EMAIL_REGEX e = true ->
     response (POST env cache (Some b)) <> invalidEmail /\
     (forall key,
        isSpamEmail e = false ->
        (truthyOpt (name b) = false \/ testWhole NAME_REGEX (default "" (name b)) = true) ->
        limited (checkRateLimit (now env) cache e EMAIL_MAX_REQUESTS EMAIL_WINDOW_MS).1
        = false ->
        apiKey env = Some key -> truthy key = true ->
        upstreamCalls (POST env cache (Some b)) = [upstreamCall key e b])).
Proof.
  intros Ht Hw. split; [|split].
  - intros t Hge. unfold POST, withSubmissionTime.
    cbn [website submissionTime email name interests].
    rewrite Ht. cbn [ltNumber].
    destruct (t <? MIN_SUBMISSION_TIME_MS) eqn:E; [apply Z.ltb_lt in E; lia|done].
  - intros Hbad. unfold POST. rewrite Hw, Ht. cbn [ltNumber].
    destruct Hbad as [-> | [-> | (e & -> & Hre)]]; [done|done|].
    rewrite Hre. by rewrite orb_true_r.
  - intros e He Hne Hre. split.
    + unfold POST. rewrite Hw, Ht, He, Hne, Hre. cbn [ltNumber negb orb].
      destruct (isSpamEmail e); [distinct|].
      destruct (truthyOpt (name b) && _); [distinct|].
      destruct (checkRateLimit (now env) cache e EMAIL_MAX_REQUESTS EMAIL_WINDOW_MS)
        as [res cache'].
      destruct (limited res); [distinct|].
      destruct (negb (truthyOpt (apiKey env))); [distinct|].
      destruct (fetch env _) as [d|st parsed]; [distinct|].
      destruct (mapUpstream st parsed) as [resp|] eqn:E; [|distinct].
      destruct (mapUpstream_Some _ _ _ E) as [[_ ->]|(_ & m & ->)]; distinct.
    + intros key Hspam Hname Hlim Hkey Hk.
      assert (Hpass : passesFilters b = Some e).
      { unfold passesFilters. rewrite Hw, Ht, He, Hne, Hre, Hspam.
        cbn [ltNumber negb orb].
        destruct Hname as [-> | ->]; [done|]. by rewrite andb_false_r. }
      rewrite (POST_after_filters env cache b e Hpass). cbn zeta.
      rewrite Hlim, Hkey. cbn [truthyOpt from_option id]. rewrite Hk. cbn [negb].
      destruct (fetch env (upstreamCall key e b)) as [d|st parsed]; [reflexivity|].
      by destruct (mapUpstream st parsed).
Qed.

Lemma missing_submissionTime_forwarded_witness :
  let b := mkBody (Some "new.user@gmail.com") None None None None in
  let bad := mkBody (Some "no at sign") None None None None in
  (forall t, MIN_SUBMISSION_TIME_MS <= t ->
     POST (acceptingEnv 0) ∅ (Some b)
     = POST (acceptingEnv 0) ∅ (Some (withSubmissionTime (Some t) b))) /\
  response (POST (acceptingEnv 0) ∅ (Some b)) <> invalidEmail /\
  upstreamCalls (POST (acceptingEnv 0) ∅ (Some b))
  = [upstreamCall "ml-key" "new.user@gmail.com" b] /\
  POST (acceptingEnv 0) ∅ (Some bad)
  = (mkResponse (Error "Please provide a valid email address") 400, ∅, []).
Proof.
  cbn zeta.
  destruct (missing_submissionTime_forwarded (acceptingEnv 0) ∅
              (mkBody (Some "new.user@gmail.com") None None None None))
    as (Hsame & _ & Hvalid); [reflexivity|reflexivity|].
  destruct (Hvalid "new.user@gmail.com") as [Hne Hcall];
    [reflexivity|reflexivity|vm_compute; reflexivity|].
  split; [exact Hsame|]. split; [exact Hne|]. split.
  - apply Hcall;
      [vm_compute; reflexivity|by left|vm_compute; reflexivity|reflexivity|reflexivity].
  - destruct (missing_submissionTime_forwarded (acceptingEnv 0) ∅
                (mkBody (Some "no at sign") None None None None))
      as (_ & Hbad & _); [reflexivity|reflexivity|].
    apply Hbad. right. right. exists "no at sign". split; [reflexivity|].
    vm_compute. reflexivity.
Defined.

(** The handler keeps the table well formed. *)
Lemma POST_wf env cache req : wfCache cache -> wfCache (table (POST env cache req)).
Proof.
  intros Hwf. destruct req as [b|]; [|done].
  destruct (passesFilters b) as [e|] eqn:Hpass.
  - rewrite (POST_after_filters env cache b e Hpass). cbn zeta.
    pose proof (RateLimitFacts.checkRateLimit_wf (now env) cache e
                  EMAIL_MAX_REQUESTS EMAIL_WINDOW_MS Hwf) as Hwf'.
    destruct (limited _); [done|]. destruct (negb _); [done|].
    destruct (fetch env _) as [d|st parsed]; [done|].
    by destruct (mapUpstream st parsed).
  - by destruct (POST_filtered env cache b Hpass) as (-> & _).
Qed.

(** After the filters the table is the one [checkRateLimit] leaves. *)
Lemma POST_table env cache b e :
  passesFilters b = Some e ->
  table (POST env cache (Some b)) =
  (checkRateLimit (now env) cache e EMAIL_MAX_REQUESTS EMAIL_WINDOW_MS).2.
Proof.
  intros Hpass. rewrite (POST_after_filters env cache b e Hpass). cbn zeta.
  destruct (limited _); [done|]. destruct (negb _); [done|].
  destruct (fetch env _) as [d|st parsed]; [done|].
  by destruct (mapUpstream st parsed).
Qed.

Lemma POST_retry_limited env1 env2 cache b1 b2 e :
  wfCache cache ->
  passesFilters b1 = Some e -> passesFilters b2 = Some e ->
  now env2 - now env1 <= EMAIL_WINDOW_MS ->
  response (POST env2 (table (POST env1 cache (Some b1))) (Some b2)) = rateLimited.
Proof.
  intros Hwf H1 H2 Hnear. rewrite (POST_table env1 cache b1 e H1).
  rewrite (POST_after_filters env2 _ b2 e H2). cbn zeta.
  unfold EMAIL_MAX_REQUESTS at 2 3 4.
  by rewrite (RateLimitFacts.retry_limited cache e EMAIL_MAX_REQUESTS
                EMAIL_WINDOW_MS (now env1) (now env2) Hwf Hnear).
Qed.

(** C2, as the specification states it, fails: two addresses that differ
    only in letter case are counted under two keys, and the second request
    is accepted. *)
Lemma case_variants_counted_apart :
  let b1 := mkBody (Some "Ann@mail.org") None None None (Some 5000) in
  let b2 := mkBody (Some "ann@mail.org") None None None (Some 5000) in
  let out1 := POST (acceptingEnv 0) ∅ (Some b1) in
  let out2 := POST (acceptingEnv 1000) (table out1) (Some b2) in
  toLowerCase (trim "Ann@mail.org") = toLowerCase (trim "ann@mail.org") /\
  response out1 = mkResponse Success 200 /\
  response out2 = mkResponse Success 200 /\
  response out2 <> rateLimited /\
  length (upstreamCalls out2) = 1%nat /\
  table out2 !! "Ann@mail.org" = Some (mkRecord 1 0) /\
  table out2 !! "ann@mail.org" = Some (mkRecord 1 1000).
Proof.
  cbn zeta. repeat split; try (vm_compute; reflexivity). vm_compute. discriminate.
Qed.

(** C2, amended.  The table is keyed by the email string exactly as it was
    submitted: a request that passes the filters is counted under its own
    email string, and a second request carrying the same string within the
    window is answered 429. *)
Theorem same_string_rate_limited (env1 env2 : Env) (cache : Cache) (b1 b2 : Body)
    (e : string) :
  wfCache cache ->
  passesFilters b1 = Some e -> passesFilters b2 = Some e ->
  now env2 - now env1 <= EMAIL_WINDOW_MS ->
  let out1 := POST env1 cache (Some b1) in
  table out1 = (checkRateLimit (now env1) cache e EMAIL_MAX_REQUESTS EMAIL_WINDOW_MS).2 /\
  (exists r, table out1 !! e = Some r /\ lastAttempt r = now env1) /\
  (forall k, k <> e -> table out1 !! k = cache !! k) /\
  response (POST env2 (table out1) (Some b2)) = rateLimited /\
  status (response (POST env2 (table out1) (Some b2))) = 429.
Proof.
  intros Hwf H1 H2 Hnear. cbn zeta.
  pose proof (POST_retry_limited env1 env2 cache b1 b2 e Hwf H1 H2 Hnear) as Hlim.
  rewrite Hlim. rewrite (POST_table env1 cache b1 e H1).
  repeat split.
  - apply RateLimitFacts.checkRateLimit_stores.
  - intros k Hne. by apply RateLimitFacts.checkRateLimit_other.
Qed.

Lemma same_string_rate_limited_witness :
  let b := mkBody (Some "new.user@gmail.com") None None None (Some 5000) in
  let out1 := POST (acceptingEnv 0) ∅ (Some b) in
  table out1 = (checkRateLimit 0 ∅ "new.user@gmail.com" EMAIL_MAX_REQUESTS EMAIL_WINDOW_MS).2 /\
  (exists r, table out1 !! "new.user@gmail.com" = Some r /\ lastAttempt r = 0) /\
  (forall k, k <> "new.user@gmail.com" -> table out1 !! k = (∅ : Cache) !! k) /\
  response (POST (acceptingEnv 1000) (table out1) (Some b)) = rateLimited /\
  status (response (POST (acceptingEnv 1000) (table out1) (Some b))) = 429.
Proof.
  apply (same_string_rate_limited (acceptingEnv 0) (acceptingEnv 1000) ∅
           (mkBody (Some "new.user@gmail.com") None None None (Some 5000))
           (mkBody (Some "new.user@gmail.com") None None None (Some 5000))
           "new.user@gmail.com").
  - apply RateLimitFacts.wfCache_empty.
  - vm_compute. reflexivity.
  - vm_compute. reflexivity.
  - vm_compute. discriminate.
Defined.

(** C10. The rate limiter runs before the credential check: when a request
    is answered with the missing-credential error 500, the table it leaves
    holds a record of its email stamped with the time of the request, and a
    retry of the same request within the window is answered 429. *)
Theorem missing_credential_consumes_slot (env1 env2 : Env) (cache : Cache) (b : Body) :
  wfCache cache ->
  response (POST env1 cache (Some b)) = notConfigured ->
  now env2 - now env1 <= EMAIL_WINDOW_MS ->
  (exists r', table (POST env1 cache (Some b)) !! default "" (email b) = Some r'
              /\ lastAttempt r' = now env1) /\
  response (POST env2 (table (POST env1 cache (Some b))) (Some b)) = rateLimited /\
  status notConfigured = 500 /\ status rateLimited = 429.
Proof.
  intros Hwf H500 Hnear.
  destruct (passesFilters b) as [e|] eqn:Hpass;
    [|by destruct (POST_filtered env1 cache b Hpass) as (_ & _ & _ & Hne)].
  assert (He : email b = Some e).
  { unfold passesFilters in Hpass.
    destruct (truthyOpt (website b)); [done|].
    destruct (ltNumber _ _); [done|].
    destruct (email b) as [e'|]; [|done].
    destruct (negb (truthy e') || _); [done|].
    destruct (isSpamEmail e'); [done|].
    destruct (truthyOpt (name b) && _); [done|]. by injection Hpass as ->. }
  rewrite He. cbn [from_option id].
  split; [|split; [|done]].
  - rewrite (POST_table env1 cache b e Hpass).
    apply RateLimitFacts.checkRateLimit_stores.
  - by apply (POST_retry_limited env1 env2 cache b b e).
Qed.

Lemma missing_credential_consumes_slot_witness :
  let b := mkBody (Some "new.user@gmail.com") None None None (Some 5000) in
  let env := mkEnv 0 None (fun _ => NetworkFailure "unreachable") in
  (exists r', table (POST env ∅ (Some b)) !! default "" (email b) = Some r'
              /\ lastAttempt r' = now env) /\
  response (POST env (table (POST env ∅ (Some b))) (Some b)) = rateLimited /\
  status notConfigured = 500 /\ status rateLimited = 429.
Proof.
  apply (missing_credential_consumes_slot
           (mkEnv 0 None (fun _ => NetworkFailure "unreachable"))
           (mkEnv 0 None (fun _ => NetworkFailure "unreachable")) ∅
           (mkBody (Some "new.user@gmail.com") None None None (Some 5000))).
  - apply RateLimitFacts.wfCache_empty.
  - vm_compute. reflexivity.
  - vm_compute. discriminate.
Defined.

(** The handler once the request has been forwarded. *)
Lemma POST_forwarded env cache b e key :
  passesFilters b = Some e ->
  limited (checkRateLimit (now env) cache e EMAIL_MAX_REQUESTS EMAIL_WINDOW_MS).1 = false ->
  apiKey env = Some key -> truthy key = true ->
  response (POST env cache (Some b)) =
    match fetch env (upstreamCall key e b) with
    | NetworkFailure _ => networkError
    | Responded st parsed => default networkError (mapUpstream st parsed)
    end.
Proof.
  intros Hpass Hlim Hkey Hk.
  rewrite (POST_after_filters env cache b e Hpass). cbn zeta.
  rewrite Hlim, Hkey. cbn [truthyOpt from_option id]. rewrite Hk. cbn [negb].
  destruct (fetch env (upstreamCall key e b)) as [d|st parsed]; [done|].
  by destruct (mapUpstream st parsed).
Qed.

(** C8, as the specification states it, fails on parse failures: a provider
    answer whose body is not JSON is mapped like any other answer of its
    status, and a request body that is not JSON is answered 400. *)
Lemma parse_failure_is_not_500 :
  let b := mkBody (Some "new.user@gmail.com") None None None (Some 5000) in
  let garbled st := mkEnv 0 (Some "ml-key")
                      (fun _ => Responded st (Unparseable "Unexpected token <")) in
  response (POST (garbled 200) ∅ (Some b)) = mkResponse Success 200 /\
  response (POST (garbled 503) ∅ (Some b))
  = mkResponse (Error "Subscription failed: Failed to parse response") 503 /\
  response (POST (garbled 200) ∅ None) = mkResponse (Error "Failed to process request") 400 /\
  status (response (POST (garbled 200) ∅ (Some b))) <> 500 /\
  status (response (POST (garbled 503) ∅ (Some b))) <> 500 /\
  status (response (POST (garbled 200) ∅ None)) <> 500.
Proof.
  cbn zeta. repeat split; try (vm_compute; reflexivity); vm_compute; discriminate.
Qed.

(** C8, amended.  For a forwarded request: a 2xx answer gives
    [{ success: true }]; a non-2xx answer whose status a response can carry
    (300 to 599, other than 304) gives, with the provider's status, the
    message "Subscription failed: " followed by the provider's [message]
    when it is truthy (a non-empty string, or any other truthy value as a
    template literal prints it), by "Failed to parse response" when the
    body is not JSON, and otherwise (no [message], a falsy one, or the
    body [null]) by the text of status 401, 429 or 422 (for 422 and a body
    other than [null], the serialised [errors] when the body has them); a
    network failure gives the fixed 500 "Network error" answer, whatever
    the exception says. *)
Theorem provider_response_mapping (env : Env) (cache : Cache) (b : Body)
    (e key : string) :
  passesFilters b = Some e ->
  limited (checkRateLimit (now env) cache e EMAIL_MAX_REQUESTS EMAIL_WINDOW_MS).1 = false ->
  apiKey env = Some key -> truthy key = true ->
  let resp := response (POST env cache (Some b)) in
  let failed (m : string) (st : Z) :=
    mkResponse (Error ("Subscription failed: " ++ m)) st in
  match fetch env (upstreamCall key e b) with
  | NetworkFailure detail =>
      resp = mkResponse (Error "Network error. Please try again later.") 500
  | Responded st data =>
      (responseOk st = true -> resp = mkResponse Success 200) /\
      (responseOk st = false -> 200 <= st <= 599 -> st <> 304 ->
         (forall v errs, data = JsonData (Some v) errs -> messageTruthy v = true ->
            resp = failed (messageText v) st) /\
         (forall detail, data = Unparseable detail ->
            resp = failed "Failed to parse response" st) /\
         (forall m errs, data = JsonData m errs ->
            m = None \/ (exists v, m = Some v /\ messageTruthy v = false) ->
            (st = 401 -> resp = failed "Invalid API key" 401) /\
            (st = 429 -> resp = failed "Rate limit exceeded" 429) /\
            (st = 422 -> resp = failed (default "Validation error" errs) 422)) /\
         (data = JsonNull ->
            (st = 401 -> resp = failed "Invalid API key" 401) /\
            (st = 429 -> resp = failed "Rate limit exceeded" 429)))
  end.
Proof.
  intros Hpass Hlim Hkey Hk. cbn zeta.
  rewrite (POST_forwarded env cache b e key Hpass Hlim Hkey Hk).
  destruct (fetch env (upstreamCall key e b)) as [d|st data]; [done|].
  unfold mapUpstream. split.
  - intros ->. done.
  - intros Hok Hrange H304. rewrite Hok. cbn [negb]. split; [|split; [|split]].
    + intros v errs -> Hv. cbn [dataMessage]. rewrite Hv.
      by rewrite (jsonResponse_carried _ st Hok Hrange H304).
    + intros detail ->. cbn [dataMessage messageTruthy messageText].
      unfold truthy. cbn [String.eqb negb].
      by rewrite (jsonResponse_carried _ st Hok Hrange H304).
    + intros m errs -> Hm.
      assert (dataMessage (JsonData m errs) = None) as ->.
      { destruct Hm as [-> | (v & -> & Hv)]; [done|]. cbn [dataMessage]. by rewrite Hv. }
      repeat split; intros ->; cbn [Z.eqb Pos.eqb validationText];
        destruct errs; by rewrite (jsonResponse_carried _ _ Hok Hrange H304).
    + intros ->. cbn [dataMessage].
      split; intros ->; cbn [Z.eqb Pos.eqb];
        by rewrite (jsonResponse_carried _ _ Hok Hrange H304).
Qed.

Lemma provider_response_mapping_witness :
  let b := mkBody (Some "new.user@gmail.com") None None None (Some 5000) in
  let env data := mkEnv 0 (Some "ml-key") (fun _ => Responded 401 data) in
  response (POST (env (JsonData None None)) ∅ (Some b))
  = mkResponse (Error "Subscription failed: Invalid API key") 401 /\
  response (POST (env (JsonData (Some (MsgOther true "42")) None)) ∅ (Some b))
  = mkResponse (Error "Subscription failed: 42") 401.
Proof.
  cbn zeta. split.
  - pose proof (provider_response_mapping
                  (mkEnv 0 (Some "ml-key") (fun _ => Responded 401 (JsonData None None)))
                  ∅ (mkBody (Some "new.user@gmail.com") None None None (Some 5000))
                  "new.user@gmail.com" "ml-key") as H.
    cbn zeta beta iota delta [fetch] in H.
    destruct H as [_ H]; [vm_compute; reflexivity..|].
    destruct H as (_ & _ & H & _); [reflexivity|lia|discriminate|].
    destruct (H None None) as [H401 _]; [reflexivity|by left|].
    exact (H401 eq_refl).
  - pose proof (provider_response_mapping
                  (mkEnv 0 (Some "ml-key")
                     (fun _ => Responded 401 (JsonData (Some (MsgOther true "42")) None)))
                  ∅ (mkBody (Some "new.user@gmail.com") None None None (Some 5000))
                  "new.user@gmail.com" "ml-key") as H.
    cbn zeta beta iota delta [fetch] in H.
    destruct H as [_ H]; [vm_compute; reflexivity..|].
    destruct H as (H & _); [reflexivity|lia|discriminate|].
    exact (H (MsgOther true "42") None eq_refl eq_refl).
Defined.

End SubscribeFacts.

(** ** Regular expressions and strings *)

Module RegexFacts.

Import Regex JsString.

Lemma lang_emp s : ~ lang Emp s.
Proof. intros H. inversion H. Qed.

Lemma nullable_lang r : nullable r = true -> lang r [].
Proof.
  induction r as [| |p|a IHa b IHb|a IHa b IHb|a IHa]; cbn; intros H; try done.
  - constructor.
  - apply andb_prop in H as [Ha Hb]. change (@nil ascii) with (@nil ascii ++ []).
    constructor; auto.
  - apply orb_prop in H as [Ha|Hb]; [apply lang_alt_l|apply lang_alt_r]; auto.
  - constructor.
Qed.

Lemma lang_nil_nullable r s : lang r s -> s = [] -> nullable r = true.
Proof.
  induction 1 as [|p c Hp|a b s t Ha IHa Hb IHb|a b s Ha IHa|a b s Hb IHb| |a s t Ha IHa Hs IHs];
    cbn; intros Hnil; try done.
  - apply app_eq_nil in Hnil as [-> ->]. by rewrite IHa, IHb.
  - by rewrite IHa.
  - rewrite IHb by done. apply orb_true_r.
Qed.

Lemma lang_nonempty r s : nullable r = false -> lang r s -> s <> [].
Proof.
  intros Hn Hl Hnil. rewrite (lang_nil_nullable r s Hl Hnil) in Hn. done.
Qed.

Lemma lang_alphabet P r s :
  lang r s -> alphabet P r -> Forall (fun c => P c = true) s.
Proof.
  induction 1 as [|p c Hp|a b s t Ha IHa Hb IHb|a b s Ha IHa|a b s Hb IHb| |a s t Ha IHa Hs IHs];
    cbn; intros Halph.
  - constructor.
  - constructor; [auto|constructor].
  - destruct Halph. apply Forall_app; auto.
  - destruct Halph. auto.
  - destruct Halph. auto.
  - constructor.
  - apply Forall_app; auto.
Qed.

Lemma seq__lang a b s : lang (seq_ a b) s -> lang (Seq a b) s.
Proof.
  destruct a; cbn; intros H; try exact H.
  - by apply lang_emp in H.
  - change s with ([] ++ s). constructor; [constructor|exact H].
Qed.

Lemma alt__lang a b s : lang (alt_ a b) s -> lang (Alt a b) s.
Proof.
  destruct a; destruct b; cbn; intros H;
    first [exact H | by apply lang_alt_r | by apply lang_alt_l].
Qed.

Lemma der_lang c r : forall s, lang (der c r) s -> lang r (c :: s).
Proof.
  induction r as [| |p|a IHa b IHb|a IHa b IHb|a IHa]; intros s H; cbn in H.
  - by apply lang_emp in H.
  - by apply lang_emp in H.
  - destruct (p c) eqn:E; [|by apply lang_emp in H].
    inversion H; subst. by constructor.
  - apply alt__lang in H. inversion H as [| | | ? ? ? Hl | ? ? ? Hr | |]; subst.
    + apply seq__lang in Hl. inversion Hl as [| |? ? s1 t H1 H2| | | |]; subst.
      change (c :: s1 ++ t) with ((c :: s1) ++ t). constructor; auto.
    + destruct (nullable a) eqn:N; [|by apply lang_emp in Hr].
      change (c :: s) with ([] ++ c :: s). constructor; [by apply nullable_lang|auto].
  - apply alt__lang in H. inversion H as [| | | ? ? ? Hl | ? ? ? Hr | |]; subst.
    + apply lang_alt_l. auto.
    + apply lang_alt_r. auto.
  - apply seq__lang in H. inversion H as [| |? ? s1 t H1 H2| | | |]; subst.
    change (c :: s1 ++ t) with ((c :: s1) ++ t). constructor; auto.
Qed.

(** What the matcher accepts belongs to the language of the pattern. *)
Lemma matches_lang s : forall r, matches r s = true -> lang r s.
Proof.
  induction s as [|c s IH]; intros r H; cbn in H.
  - by apply nullable_lang.
  - by apply der_lang, IH.
Qed.

Lemma lang_seq_ a b s t : lang a s -> lang b t -> lang (seq_ a b) (s ++ t).
Proof.
  intros Ha Hb. destruct a; cbn; try by constructor.
  - by apply lang_emp in Ha.
  - by inversion Ha.
Qed.

Lemma lang_alt_l_ a b s : lang a s -> lang (alt_ a b) s.
Proof.
  intros Ha. destruct a; destruct b; cbn;
    first [exact Ha | by apply lang_emp in Ha | by apply lang_alt_l].
Qed.

Lemma lang_alt_r_ a b s : lang b s -> lang (alt_ a b) s.
Proof.
  intros Hb. destruct a; destruct b; cbn;
    first [exact Hb | by apply lang_emp in Hb | by apply lang_alt_r].
Qed.

Lemma lang_der r t : lang r t -> forall c s, t = c :: s -> lang (der c r) s.
Proof.
  induction 1 as [|p d Hp|a b s1 t1 Ha IHa Hb IHb|a b s1 Ha IHa|a b s1 Hb IHb|
                  |a s1 t1 Ha IHa Hs IHs];
    intros c s Heq; cbn [der].
  - done.
  - injection Heq as -> <-. rewrite Hp. constructor.
  - destruct s1 as [|c1 s1]; cbn in Heq.
    + rewrite (lang_nil_nullable a [] Ha eq_refl). apply lang_alt_r_. by apply IHb.
    + injection Heq as -> <-. apply lang_alt_l_, lang_seq_; [by apply IHa|done].
  - apply lang_alt_l_. by apply IHa.
  - apply lang_alt_r_. by apply IHb.
  - done.
  - destruct s1 as [|c1 s1]; cbn in Heq.
    + by apply IHs.
    + injection Heq as -> <-. apply lang_seq_; [by apply IHa|done].
Qed.

(** The matcher accepts every string of the language. *)
Lemma lang_matches s : forall r, lang r s -> matches r s = true.
Proof.
  induction s as [|c s IH]; intros r H; cbn.
  - by apply (lang_nil_nullable r []).
  - apply IH. by apply (lang_der r (c :: s)).
Qed.

Lemma matches_iff r s : matches r s = true <-> lang r s.
Proof. split; [apply matches_lang|apply lang_matches]. Qed.

Lemma lang_any s : lang (Star (Chr anyChar)) s.
Proof.
  induction s as [|c s IH]; [constructor|].
  change (c :: s) with ([c] ++ s). constructor; [by constructor|done].
Qed.

(** An unanchored pattern is tested against every substring. *)
Lemma testSearch_iff r s :
  testSearch r s = true <->
  exists pre mid post, chars s = pre ++ mid ++ post /\ lang r mid.
Proof.
  unfold testSearch. rewrite matches_iff. cbn [Cat]. split.
  - intros H. inversion H as [| |? ? pre t Hpre Ht| | | |]; subst.
    inversion Ht as [| |? ? mid post Hmid Hpost| | | |]; subst.
    exists pre, mid, post. split; [|done]. unfold chars. congruence.
  - intros (pre & mid & post & Heq & Hmid). unfold chars in Heq. rewrite Heq.
    constructor; [apply lang_any|]. constructor; [done|apply lang_any].
Qed.

(** *** Lists of characters and strings *)

Lemma ofChars_chars s : ofChars (chars s) = s.
Proof. apply string_of_list_ascii_of_string. Qed.

Lemma chars_ofChars l : chars (ofChars l) = l.
Proof. apply list_ascii_of_string_of_list_ascii. Qed.

Lemma length_chars s : length (chars s) = String.length s.
Proof. induction s as [|c s IH]; cbn; [done|by rewrite IH]. Qed.

Lemma jsLength_ofChars l : jsLength (ofChars l) = Z.of_nat (length l).
Proof. unfold jsLength. by rewrite <- length_chars, chars_ofChars. Qed.

Lemma dropSpace_incl l c : c ∈ dropSpace l -> c ∈ l.
Proof.
  induction l as [|d l IH]; cbn; [done|].
  destruct (isSpace d); [|done]. intros H. apply elem_of_cons. right. auto.
Qed.

Lemma trim_incl s c : c ∈ chars (trim s) -> c ∈ chars s.
Proof.
  unfold trim. rewrite chars_ofChars. intros H.
  apply list_elem_of_In, in_rev, list_elem_of_In, dropSpace_incl in H.
  by apply list_elem_of_In, in_rev, list_elem_of_In, dropSpace_incl in H.
Qed.

Lemma lowerChar_at c : lowerChar c = "@"%char -> c = "@"%char.
Proof.
  destruct c as [[] [] [] [] [] [] [] []]; vm_compute; intros H; congruence.
Qed.

Lemma toLowerCase_at s : "@"%char ∈ chars (toLowerCase s) -> "@"%char ∈ chars s.
Proof.
  unfold toLowerCase. rewrite chars_ofChars. intros H.
  apply list_elem_of_fmap in H as (c & Hc & Hin).
  symmetry in Hc. apply lowerChar_at in Hc. by subst.
Qed.

Lemma length_toLowerCase s : jsLength (toLowerCase s) = jsLength s.
Proof.
  unfold toLowerCase. rewrite jsLength_ofChars, length_map, length_chars. done.
Qed.

Lemma lastIndexOfFrom_absent i c l :
  c ∉ l -> lastIndexOfFrom i c l = None.
Proof.
  revert i. induction l as [|d l IH]; intros i Hnin; cbn; [done|].
  apply not_elem_of_cons in Hnin as [Hne Hnin]. rewrite IH by done.
  destruct (Ascii.eqb_spec d c); [congruence|done].
Qed.

Lemma lastIndexOfFrom_split i c l d :
  c ∉ d -> lastIndexOfFrom i c (l ++ c :: d) = Some (i + length l)%nat.
Proof.
  intros Hnin. revert i. induction l as [|x l IH]; intros i; cbn.
  - rewrite lastIndexOfFrom_absent by done. rewrite Ascii.eqb_refl.
    f_equal. lia.
  - rewrite IH. f_equal. lia.
Qed.

End RegexFacts.

(** ** The email validation utility *)

Module EmailValidatorFacts.

Import Regex JsString EmailValidator RegexFacts.

Lemma alphabet_UpTo P a n : alphabet P a -> alphabet P (UpTo n a).
Proof. intros Ha. induction n as [|n IH]; cbn; auto. Qed.

Lemma alphabet_label : alphabet domainChar label.
Proof.
  assert (Hal : alphabet domainChar (Chr isAlnum)).
  { intros c Hc. unfold domainChar. by rewrite Hc. }
  assert (Hah : alphabet domainChar (Chr alnumHyphen)).
  { intros c Hc. unfold domainChar, alnumHyphen in *. by rewrite Hc. }
  unfold label, Opt. cbn [alphabet].
  split; [done|]. split; [done|]. split; [by apply alphabet_UpTo|done].
Qed.

Lemma alphabet_standardDomain : alphabet domainChar standardDomain.
Proof.
  unfold standardDomain. cbn [alphabet]. repeat split; try apply alphabet_label.
  intros c Hc. apply Ascii.eqb_eq in Hc. by subst.
Qed.

(** A string matched by the standard pattern is a non-empty local part, an
    [@] and a non-empty domain that holds no [@]. *)
Lemma standard_shape n :
  testWhole (EMAIL_PATTERNS standard) n = true ->
  exists l d, chars n = l ++ "@"%char :: d /\ l <> [] /\ d <> [] /\ "@"%char ∉ d.
Proof.
  unfold testWhole. fold (chars n). generalize (chars n). clear n.
  intros s H. apply matches_lang in H.
  change (EMAIL_PATTERNS standard)
    with (Seq (Plus (Chr localStd)) (Seq (Chr (Ascii.eqb "@")) standardDomain)) in H.
  inversion H as [| |? ? l t Hl Ht| | | |]; subst.
  inversion Ht as [| |? ? a d Ha Hd| | | |]; subst.
  inversion Ha as [|? c Hc| | | | |]; subst.
  apply Ascii.eqb_eq in Hc. subst c.
  exists l, d. repeat split.
  - by apply (lang_nonempty _ _ (eq_refl : nullable (Plus (Chr localStd)) = false)).
  - by apply (lang_nonempty _ _ (eq_refl : nullable standardDomain = false)).
  - intros Hin. pose proof (lang_alphabet domainChar _ _ Hd alphabet_standardDomain) as Hall.
    rewrite Forall_forall in Hall. specialize (Hall _ Hin). done.
Qed.

(** The verdict at the standard level, with no allow or block list and the
    default length limit, as the conjunction of the checks that can fail. *)
Lemma isValid_standard s cd ds :
  let n := toLowerCase (trim s) in
  isValid (validateEmailAdvanced (Some s) (mkOptions standard cd ds [] [] 254)) =
    negb (String.eqb (trim s) "")
    && negb (254 <? jsLength (trim s))
    && testWhole (EMAIL_PATTERNS standard) n
    && match lastIndexOf "@" n with
       | Some i =>
           negb (jsLength (sliceTo i n) =? 0)
           && negb (64 <? jsLength (sliceTo i n))
           && negb (jsLength (sliceFrom (S i) n) =? 0)
           && negb (253 <? jsLength (sliceFrom (S i) n))
           && negb (includesDotDot n)
       | None => false
       end.
Proof.
  cbn zeta. unfold validateEmailAdvanced.
  cbn [opt_level maxLength allowedDomains blockedDomains detectSpam checkDisposable].
  destruct (String.eqb (trim s) ""); [reflexivity|].
  destruct (254 <? jsLength (trim s)); [reflexivity|].
  destruct (testWhole (EMAIL_PATTERNS standard) (toLowerCase (trim s))); [|reflexivity].
  destruct (lastIndexOf "@" (toLowerCase (trim s))) as [i|]; [|reflexivity].
  destruct (jsLength (sliceTo i (toLowerCase (trim s))) =? 0); [reflexivity|].
  destruct (64 <? jsLength (sliceTo i (toLowerCase (trim s)))); [reflexivity|].
  destruct (jsLength (sliceFrom (S i) (toLowerCase (trim s))) =? 0); [reflexivity|].
  destruct (253 <? jsLength (sliceFrom (S i) (toLowerCase (trim s)))); [reflexivity|].
  destruct (includesDotDot (toLowerCase (trim s))); [reflexivity|].
  cbn [length Nat.eqb negb andb includesStr existsb isStrictLevel isParanoid].
  rewrite !andb_false_r. cbn [andb].
  by destruct cd, ds.
Qed.

(** The parts the validator cuts out of a string of the standard shape. *)
Lemma standard_parts n l d :
  chars n = l ++ "@"%char :: d -> "@"%char ∉ d ->
  lastIndexOf "@" n = Some (length l) /\
  jsLength (sliceTo (length l) n) = Z.of_nat (length l) /\
  jsLength (sliceFrom (S (length l)) n) = Z.of_nat (length d) /\
  jsLength n = Z.of_nat (length l) + 1 + Z.of_nat (length d).
Proof.
  intros Hn Hd. repeat split.
  - unfold lastIndexOf. rewrite Hn. by rewrite lastIndexOfFrom_split.
  - unfold sliceTo. by rewrite jsLength_ofChars, Hn, take_app_length.
  - unfold sliceFrom. rewrite jsLength_ofChars, Hn.
    replace (S (length l)) with (length l + 1)%nat by lia.
    by rewrite drop_app_add.
  - unfold jsLength. rewrite <- length_chars, Hn, length_app. cbn [length]. lia.
Qed.

(** C4, as the specification states it, fails in both directions: an
    address with two consecutive dots matches the standard pattern and is
    rejected, and an address whose domain has no dot is accepted. *)
Lemma standard_level_counterexamples :
  testWhole (EMAIL_PATTERNS standard) "a..b@c.de" = true /\
  isValid (validateEmailAdvanced (Some "a..b@c.de") defaultOptions) = false /\
  sliceFrom 2 "a@b" = "b" /\ ("."%char ∉ chars "b") /\
  isValid (validateEmailAdvanced (Some "a@b") defaultOptions) = true.
Proof.
  repeat split; try (vm_compute; reflexivity).
  intros H. vm_compute in H.
  apply elem_of_cons in H as [H|H]; [discriminate|by apply elem_of_nil in H].
Qed.

(** C4, amended.  At the standard level, with no allow or block list and
    the default length limit, the validator accepts every string whose
    trimmed form is not empty, has at most 254 characters, matches the
    standard pattern once in lower case, has at most 64 characters before
    its last [@] and holds no two consecutive dots; and it rejects every
    string that holds no [@]. *)
Theorem standard_level_validation (s : string) (cd ds : bool) :
  let options := mkOptions standard cd ds [] [] 254 in
  let n := toLowerCase (trim s) in
  (trim s <> "" ->
   jsLength (trim s) <= 254 ->
   testWhole (EMAIL_PATTERNS standard) n = true ->
   (forall i, lastIndexOf "@" n = Some i -> (i <= 64)%nat) ->
   includesDotDot n = false ->
   isValid (validateEmailAdvanced (Some s) options) = true) /\
  ("@"%char ∉ chars s ->
   isValid (validateEmailAdvanced (Some s) options) = false).
Proof.
  cbn zeta. rewrite isValid_standard. cbn zeta. split.
  - intros Hne Hlen Hre Hloc Hdots.
    destruct (standard_shape _ Hre) as (l & d & Hn & Hl & Hd & Hat).
    destruct (standard_parts _ l d Hn Hat) as (Hidx & Hlp & Hdp & Htot).
    specialize (Hloc _ Hidx). rewrite length_toLowerCase in Htot.
    rewrite Hidx, Hlp, Hdp, Hre, Hdots.
    assert (length l <> 0%nat) by (by destruct l).
    assert (length d <> 0%nat) by (by destruct d).
    destruct (String.eqb_spec (trim s) ""); [done|].
    repeat match goal with
           | |- context [negb (?a <? ?b)] =>
               destruct (Z.ltb_spec a b); [lia|]
           | |- context [negb (?a =? ?b)] =>
               destruct (Z.eqb_spec a b); [lia|]
           end.
    reflexivity.
  - intros Hnoat.
    destruct (testWhole (EMAIL_PATTERNS standard) (toLowerCase (trim s))) eqn:Hre.
    + destruct (standard_shape _ Hre) as (l & d & Hn & _).
      exfalso. apply Hnoat, trim_incl, toLowerCase_at. rewrite Hn.
      apply elem_of_app. right. apply elem_of_cons. by left.
    + by rewrite andb_false_r.
Qed.

Lemma standard_level_validation_witness :
  isValid (validateEmailAdvanced (Some " New.User@Gmail.com ")
             (mkOptions standard false false [] [] 254)) = true /\
  isValid (validateEmailAdvanced (Some "new.user.gmail.com")
             (mkOptions standard false false [] [] 254)) = false.
Proof.
  split.
  - apply (standard_level_validation " New.User@Gmail.com " false false).
    + vm_compute. discriminate.
    + vm_compute. discriminate.
    + vm_compute. reflexivity.
    + intros i Hi. vm_compute in Hi. injection Hi as <-. repeat constructor.
    + vm_compute. reflexivity.
  - apply (standard_level_validation "new.user.gmail.com" false false).
    intros H. repeat (apply elem_of_cons in H as [H|H]; [discriminate|]).
    by apply elem_of_nil in H.
Defined.

End EmailValidatorFacts.

(** ** The rate limiter: quota, result fields and the periodic sweep *)

Module RateLimitProps.

Import RateLimit RateLimitFacts.

(** X1. A call records the attempt under its own key, stamped with the
    current time, leaves every other key as it was and never removes a
    record: the keys of the table are those it had, plus the key of the
    call. *)
Theorem checkRateLimit_footprint (now : Z) (cache : Cache) (key : string)
    (maxRequests windowMs : Z) :
  let out := checkRateLimit now cache key maxRequests windowMs in
  (exists r, out.2 !! key = Some r /\ lastAttempt r = now) /\
  (forall k, k <> key -> out.2 !! k = cache !! k) /\
  dom out.2 = {[key]} ∪ dom cache.
Proof.
  cbn zeta. split; [apply checkRateLimit_stores|].
  split; [intros k Hne; by apply checkRateLimit_other|].
  unfold checkRateLimit.
  destruct (cache !! key) as [r|]; [destruct (windowMs <? now - lastAttempt r)|];
    cbn [snd]; apply dom_insert_L.
Qed.

(** The answers to a run of calls on key [k] that finds a record of [k] and
    stays within the window. *)
Lemma quota_from k m w cs :
  forall cache r,
    cache !! k = Some r ->
    Forall (fun c => call_key c = k /\ call_max c = m /\ call_window c = w) cs ->
    withinWindow k (lastAttempt r) cs ->
    forall (i : nat) ci ri,
      cs !! i = Some ci -> (runCalls cache cs).1 !! i = Some ri ->
      limited ri = (m <? count r + Z.of_nat (S i)) /\
      remainingRequests ri = Z.max 0 (m - (count r + Z.of_nat (S i))) /\
      resetTime ri = call_now ci + w.
Proof.
  induction cs as [|c cs IH]; intros cache r Hk Hall Hwin i ci ri Hi Hri; [done|].
  apply Forall_cons in Hall as [(Hkey & Hm & Hw) Hall].
  cbn [withinWindow] in Hwin. rewrite decide_True in Hwin by done.
  destruct Hwin as [Hnear Hwin].
  rewrite runCalls_cons in Hri. cbn [fst] in Hri.
  assert (Hstep : doCall cache c =
            (mkResult (m <? count r + 1) (Z.max 0 (m - (count r + 1))) (call_now c + w),
             <[k := mkRecord (count r + 1) (call_now c)]> cache)).
  { unfold doCall, checkRateLimit. rewrite Hkey, Hk, Hm, Hw.
    destruct (w <? call_now c - lastAttempt r) eqn:E; [apply Z.ltb_lt in E; lia|done]. }
  destruct i as [|i].
  - cbn in Hi, Hri. injection Hi as <-. injection Hri as <-. by rewrite Hstep.
  - cbn in Hi, Hri. rewrite Hstep in Hri. cbn [snd] in Hri.
    destruct (IH (<[k := mkRecord (count r + 1) (call_now c)]> cache)
                (mkRecord (count r + 1) (call_now c))
                (lookup_insert_eq _ _ _) Hall Hwin i ci ri Hi Hri) as (H1 & H2 & H3).
    cbn [count] in H1, H2.
    replace (count r + Z.of_nat (S (S i))) with (count r + 1 + Z.of_nat (S i)) by lia.
    done.
Qed.

(** X2. The quota.  On a key with no record, a run of calls that all use
    [maxRequests = m >= 1] and the same window, each arriving within the
    window of the one before, accepts the first [m] calls and limits every
    later one; call number [n] reports [max 0 (m - n)] remaining requests and
    a reset time one window after its own clock reading. *)
Theorem quota_on_fresh_key (k : string) (m w : Z) (cache : Cache) (c0 : Call)
    (rest : list Call) (i : nat) (ci : Call) (ri : RateLimitResult) :
  1 <= m ->
  cache !! k = None ->
  Forall (fun c => call_key c = k /\ call_max c = m /\ call_window c = w) (c0 :: rest) ->
  withinWindow k (call_now c0) rest ->
  (c0 :: rest) !! i = Some ci ->
  (runCalls cache (c0 :: rest)).1 !! i = Some ri ->
  limited ri = (m <? Z.of_nat (S i)) /\
  remainingRequests ri = Z.max 0 (m - Z.of_nat (S i)) /\
  resetTime ri = call_now ci + w.
Proof.
  intros Hm Hfresh Hall Hwin Hi Hri.
  apply Forall_cons in Hall as [(Hkey & Hmax & Hw) Hall].
  rewrite runCalls_cons in Hri. cbn [fst] in Hri.
  assert (Hstep : doCall cache c0 =
            (mkResult false (m - 1) (call_now c0 + w),
             <[k := mkRecord 1 (call_now c0)]> cache)).
  { unfold doCall, checkRateLimit. by rewrite Hkey, Hfresh, Hmax, Hw. }
  destruct i as [|i].
  - cbn in Hi, Hri. injection Hi as <-. injection Hri as <-. rewrite Hstep.
    cbn. repeat split; [symmetry; apply Z.ltb_ge|]; lia.
  - cbn in Hi, Hri. rewrite Hstep in Hri. cbn [snd] in Hri.
    destruct (quota_from k m w rest (<[k := mkRecord 1 (call_now c0)]> cache)
                (mkRecord 1 (call_now c0)) (lookup_insert_eq _ _ _) Hall Hwin
                i ci ri Hi Hri) as (H1 & H2 & H3).
    cbn [count] in H1, H2.
    replace (Z.of_nat (S (S i))) with (1 + Z.of_nat (S i)) by lia. done.
Qed.

Lemma quota_on_fresh_key_witness :
  let k := "a@b.co" in
  let cs := [mkCall 0 k 2 1000; mkCall 900 k 2 1000; mkCall 1800 k 2 1000] in
  (limited <$> (runCalls ∅ cs).1) = [false; false; true] /\
  limited (mkResult true 0 2800) = (2 <? Z.of_nat 3) /\
  remainingRequests (mkResult true 0 2800) = Z.max 0 (2 - Z.of_nat 3) /\
  resetTime (mkResult true 0 2800) = 1800 + 1000.
Proof.
  split; [vm_compute; reflexivity|].
  apply (quota_on_fresh_key "a@b.co" 2 1000 ∅ (mkCall 0 "a@b.co" 2 1000)
           [mkCall 900 "a@b.co" 2 1000; mkCall 1800 "a@b.co" 2 1000]
           2 (mkCall 1800 "a@b.co" 2 1000) (mkResult true 0 2800)).
  - lia.
  - apply lookup_empty.
  - repeat constructor.
  - cbn. repeat split; lia.
  - reflexivity.
  - vm_compute. reflexivity.
Defined.

(** X3. The fields of an answer agree with each other.  On a table whose
    records have been counted at least once and with [maxRequests >= 1]: the
    reset time is one window after the call, the remaining requests lie
    between 0 and [maxRequests - 1], a limited call has none left, and a
    call that has requests left is not limited. *)
Theorem result_consistent (now : Z) (cache : Cache) (key : string)
    (maxRequests windowMs : Z) :
  wfCache cache -> 1 <= maxRequests ->
  let res := (checkRateLimit now cache key maxRequests windowMs).1 in
  resetTime res = now + windowMs /\
  0 <= remainingRequests res <= maxRequests - 1 /\
  (limited res = true -> remainingRequests res = 0) /\
  (0 < remainingRequests res -> limited res = false).
Proof.
  intros Hwf Hm. cbn zeta. unfold checkRateLimit.
  destruct (cache !! key) as [r|] eqn:E.
  - specialize (Hwf _ _ E).
    destruct (windowMs <? now - lastAttempt r); cbn.
    + split; [done|]. split; [lia|]. split; [done|]. done.
    + split; [done|]. split; [lia|]. split.
      * intros Hl. apply Z.ltb_lt in Hl. lia.
      * intros Hr. apply Z.ltb_ge. lia.
  - cbn. split; [done|]. split; [lia|]. split; [done|]. done.
Qed.

Lemma result_consistent_witness :
  let res := (checkRateLimit 50 {[ "a@b.co" := mkRecord 3 10 ]} "a@b.co" 5 1000).1 in
  resetTime res = 50 + 1000 /\
  0 <= remainingRequests res <= 5 - 1 /\
  (limited res = true -> remainingRequests res = 0) /\
  (0 < remainingRequests res -> limited res = false).
Proof.
  apply (result_consistent 50 {[ "a@b.co" := mkRecord 3 10 ]} "a@b.co" 5 1000).
  - intros k r Hk. apply lookup_singleton_Some in Hk as [_ <-]. cbn. lia.
  - lia.
Defined.

Lemma cleanup_lookup now cache k r :
  cleanup now cache !! k = Some r <->
  cache !! k = Some r /\ now - lastAttempt r <= cleanupInterval.
Proof.
  unfold cleanup. rewrite map_lookup_filter_Some. cbn [snd].
  rewrite negb_true_iff, Z.ltb_ge. done.
Qed.

Lemma cleanup_lookup_None now cache k :
  cleanup now cache !! k = None <->
  cache !! k = None \/
  exists r, cache !! k = Some r /\ cleanupInterval < now - lastAttempt r.
Proof.
  destruct (cleanup now cache !! k) as [r|] eqn:E.
  - apply cleanup_lookup in E as [E Hle]. split; [done|].
    intros [H|(r' & H & Hlt)]; [congruence|]. rewrite E in H. injection H as <-. lia.
  - split; [|done]. intros _.
    destruct (cache !! k) as [r|] eqn:Ec; [|by left]. right. exists r. split; [done|].
    destruct (Z.le_gt_cases (now - lastAttempt r) cleanupInterval) as [Hle|Hgt]; [|lia].
    assert (cleanup now cache !! k = Some r) by (by apply cleanup_lookup). congruence.
Qed.

(** X4. The sweep removes exactly the records whose last attempt is more
    than [cleanupInterval] old and changes no record it keeps; a second
    sweep at a later time leaves the table one sweep at that later time
    would leave. *)
Theorem cleanup_removes_stale (now : Z) (cache : Cache) :
  (forall k r, cleanup now cache !! k = Some r <->
               cache !! k = Some r /\ now - lastAttempt r <= cleanupInterval) /\
  (forall s, s <= now -> cleanup now (cleanup s cache) = cleanup now cache).
Proof.
  split; [intros k r; apply cleanup_lookup|].
  intros s Hle. apply map_eq. intros k. apply option_eq. intros r.
  rewrite !cleanup_lookup. split; [tauto|]. intros [Hk Hr]. repeat split; try done. lia.
Qed.

(** The answer of a call does not depend on an earlier sweep, as long as
    the window is no longer than the sweep's horizon. *)
Lemma checkRateLimit_after_cleanup s now cache key m w :
  s <= now -> w <= cleanupInterval ->
  (checkRateLimit now (cleanup s cache) key m w).1 = (checkRateLimit now cache key m w).1 /\
  (checkRateLimit now (cleanup s cache) key m w).2 !! key
  = (checkRateLimit now cache key m w).2 !! key.
Proof.
  intros Hs Hw. rewrite !checkRateLimit_same. unfold checkRateLimit.
  destruct (cleanup s cache !! key) as [r|] eqn:E.
  - apply cleanup_lookup in E as [-> _].
    by destruct (w <? now - lastAttempt r).
  - apply cleanup_lookup_None in E as [->|(r & -> & Hlt)]; [done|].
    destruct (w <? now - lastAttempt r) eqn:E2; [done|]. apply Z.ltb_ge in E2. lia.
Qed.

(** X5. The sweep is invisible to callers: when the clock has not gone back
    since the sweep and the window is at most [cleanupInterval] (the
    endpoint uses exactly that window), a call answers the same, and stores
    the same record under its key, whether or not the sweep has run. *)
Theorem sweep_transparent (s now : Z) (cache : Cache) (key : string)
    (maxRequests windowMs : Z) :
  s <= now -> windowMs <= cleanupInterval ->
  (checkRateLimit now (cleanup s cache) key maxRequests windowMs).1
  = (checkRateLimit now cache key maxRequests windowMs).1 /\
  (checkRateLimit now (cleanup s cache) key maxRequests windowMs).2 !! key
  = (checkRateLimit now cache key maxRequests windowMs).2 !! key.
Proof. apply checkRateLimit_after_cleanup. Qed.

Lemma sweep_transparent_witness :
  let cache : Cache := {[ "a@b.co" := mkRecord 1 0 ]} in
  let s := EMAIL_WINDOW_MS + 5 in
  let now := EMAIL_WINDOW_MS + 9 in
  cleanup s cache !! "a@b.co" = None /\
  (checkRateLimit now (cleanup s cache) "a@b.co" 1 EMAIL_WINDOW_MS).1
  = (checkRateLimit now cache "a@b.co" 1 EMAIL_WINDOW_MS).1 /\
  (checkRateLimit now (cleanup s cache) "a@b.co" 1 EMAIL_WINDOW_MS).2 !! "a@b.co"
  = (checkRateLimit now cache "a@b.co" 1 EMAIL_WINDOW_MS).2 !! "a@b.co".
Proof.
  split; [vm_compute; reflexivity|].
  apply (sweep_transparent (EMAIL_WINDOW_MS + 5) (EMAIL_WINDOW_MS + 9)
           {[ "a@b.co" := mkRecord 1 0 ]} "a@b.co" 1 EMAIL_WINDOW_MS).
  - lia.
  - vm_compute. discriminate.
Defined.

End RateLimitProps.

(** ** The subscription endpoint: calls, table and silent answers *)

Module SubscribeProps.

Import Regex JsString RateLimit Subscribe RateLimitFacts SubscribeFacts.

Lemma passesFilters_email b e : passesFilters b = Some e -> email b = Some e.
Proof.
  unfold passesFilters. intros Hpass.
  destruct (truthyOpt (website b)); [done|].
  destruct (ltNumber _ _); [done|].
  destruct (email b) as [e'|]; [|done].
  destruct (negb (truthy e') || _); [done|].
  destruct (isSpamEmail e'); [done|].
  destruct (truthyOpt (name b) && _); [done|]. by injection Hpass as ->.
Qed.

(** X6. The provider is called at most once per request, and only for a
    request that passed every filter and was not rate-limited, under a
    configured credential; the call then carries that credential and the
    payload built from the body. *)
Theorem provider_called_at_most_once (env : Env) (cache : Cache) (req : option Body) :
  upstreamCalls (POST env cache req) = [] \/
  exists b e key,
    req = Some b /\ passesFilters b = Some e /\
    apiKey env = Some key /\ key <> "" /\
    limited (checkRateLimit (now env) cache e EMAIL_MAX_REQUESTS EMAIL_WINDOW_MS).1 = false /\
    upstreamCalls (POST env cache req)
    = [mkUpstreamCall "https://connect.mailerlite.com/api/subscribers"
         ("Bearer " ++ key) (buildSubscriber e (name b) (interests b))].
Proof.
  destruct req as [b|]; [|by left].
  destruct (passesFilters b) as [e|] eqn:Hpass;
    [|left; by destruct (POST_filtered env cache b Hpass) as (_ & -> & _)].
  rewrite (POST_after_filters env cache b e Hpass). cbn zeta.
  destruct (limited _) eqn:Hlim; [by left|].
  destruct (apiKey env) as [key|] eqn:Hkey; [|by left]. cbn [truthyOpt from_option id].
  unfold truthy. destruct (String.eqb_spec key ""); [by left|]. cbn [negb].
  right. exists b, e, key. repeat split; try done.
  destruct (fetch env _) as [d|st parsed]; [done|]. by destruct (mapUpstream st parsed).
Qed.

(** X7. The handler changes at most the record of the submitted email and
    never removes a record: every other key keeps its record, and the keys
    of the table are those it had, with the submitted email added when the
    request reached the rate limiter. *)
Theorem POST_table_footprint (env : Env) (cache : Cache) (req : option Body) :
  let out := POST env cache req in
  (forall k, (forall b, req = Some b -> email b <> Some k) ->
             table out !! k = cache !! k) /\
  (table out = cache \/
   exists b e, req = Some b /\ email b = Some e /\
               dom (table out) = {[e]} ∪ dom cache).
Proof.
  cbn zeta. destruct req as [b|]; [|by split; [|left]].
  destruct (passesFilters b) as [e|] eqn:Hpass.
  - pose proof (passesFilters_email b e Hpass) as He.
    rewrite (POST_table env cache b e Hpass). split.
    + intros k Hk. apply checkRateLimit_other. intros ->. by apply (Hk b).
    + right. exists b, e. repeat split; try done.
      unfold checkRateLimit.
      destruct (cache !! e) as [r|];
        [destruct (EMAIL_WINDOW_MS <? now env - lastAttempt r)|];
        cbn [snd]; apply dom_insert_L.
  - destruct (POST_filtered env cache b Hpass) as (-> & _). by split; [|left].
Qed.

(** X8. An email of valid format that matches a spam pattern is answered
    200 [{ success: true }], whatever the name holds; the table is left as
    it was and the provider is not called. *)
Theorem spam_email_silently_dropped (env : Env) (cache : Cache) (b : Body) (e : string) :
  truthyOpt (website b) = false ->
  ltNumber (submissionTime b) MIN_SUBMISSION_TIME_MS = false ->
  email b = Some e ->
  testWhole EMAIL_REGEX e = true ->
  isSpamEmail e = true ->
  POST env cache (Some b) = (mkResponse Success 200, cache, []).
Proof.
  intros Hw Ht He Hre Hspam. unfold POST. rewrite Hw, Ht, He, Hre, Hspam.
  unfold truthy. destruct (String.eqb_spec e "") as [->|]; [|done].
  vm_compute in Hre. discriminate.
Qed.

Lemma spam_email_silently_dropped_witness :
  POST (acceptingEnv 0) ∅
       (Some (mkBody (Some "test@test.com") (Some "R2-D2") None None (Some 5000)))
  = (mkResponse Success 200, ∅, []).
Proof.
  apply (spam_email_silently_dropped (acceptingEnv 0) ∅
           (mkBody (Some "test@test.com") (Some "R2-D2") None None (Some 5000))
           "test@test.com");
    vm_compute; reflexivity.
Defined.

(** X9. The answers for a malformed body, an invalid email and an invalid
    name never come with a change of the table or a call to the provider:
    a rejected submission does not use up the email's slot. *)
Theorem validation_errors_keep_slot (env : Env) (cache : Cache) (req : option Body) :
  response (POST env cache req) = badRequest \/
  response (POST env cache req) = invalidEmail \/
  response (POST env cache req) = invalidName ->
  table (POST env cache req) = cache /\ upstreamCalls (POST env cache req) = [].
Proof.
  intros Hresp. destruct req as [b|]; [|done].
  destruct (passesFilters b) as [e|] eqn:Hpass;
    [|by destruct (POST_filtered env cache b Hpass) as (-> & -> & _)].
  exfalso. revert Hresp. rewrite (POST_after_filters env cache b e Hpass). cbn zeta.
  destruct (limited _); [intros [H|[H|H]]; revert H; distinct|].
  destruct (negb _); [intros [H|[H|H]]; revert H; distinct|].
  destruct (fetch env _) as [d|st parsed]; [intros [H|[H|H]]; revert H; distinct|].
  destruct (mapUpstream st parsed) as [resp|] eqn:E;
    [|intros [H|[H|H]]; revert H; distinct].
  destruct (mapUpstream_Some _ _ _ E) as [[_ ->]|(_ & m & ->)];
    intros [H|[H|H]]; revert H; distinct.
Qed.

Lemma validation_errors_keep_slot_witness :
  let req := Some (mkBody (Some "ann@mail.org") (Some "R2-D2") None None (Some 5000)) in
  table (POST (acceptingEnv 0) ∅ req) = ∅ /\
  upstreamCalls (POST (acceptingEnv 0) ∅ req) = [].
Proof.
  apply (validation_errors_keep_slot (acceptingEnv 0) ∅
           (Some (mkBody (Some "ann@mail.org") (Some "R2-D2") None None (Some 5000)))).
  right. right. vm_compute. reflexivity.
Defined.

(** Closes a goal that equates two answers of different kinds. *)
Ltac differ :=
  unfold response; cbn;
  unfold ok200, invalidEmail, invalidName, rateLimited, notConfigured,
    networkError, badRequest;
  cbn; discriminate.

(** X10. When the client is told [{ success: true }] after the provider was
    called, the provider answered with a 2xx status. *)
Theorem success_after_call_means_2xx (env : Env) (cache : Cache) (req : option Body)
    (call : UpstreamCall) :
  response (POST env cache req) = mkResponse Success 200 ->
  upstreamCalls (POST env cache req) = [call] ->
  exists st data, fetch env call = Responded st data /\ 200 <= st <= 299.
Proof.
  intros Hresp Hcall. destruct req as [b|]; [|exfalso; revert Hresp; differ].
  destruct (passesFilters b) as [e|] eqn:Hpass;
    [|by destruct (POST_filtered env cache b Hpass) as (_ & Hc & _); rewrite Hc in Hcall].
  revert Hresp Hcall. rewrite (POST_after_filters env cache b e Hpass). cbn zeta.
  destruct (limited _); [intros H; exfalso; revert H; differ|].
  destruct (negb _); [intros H; exfalso; revert H; differ|].
  destruct (fetch env _) as [d|st parsed] eqn:Hf; [intros H; exfalso; revert H; differ|].
  destruct (mapUpstream st parsed) as [resp|] eqn:E;
    [|intros H; exfalso; revert H; differ].
  unfold response, upstreamCalls. cbn [fst snd]. intros -> [= <-].
  exists st, parsed. split; [done|].
  destruct (mapUpstream_Some _ _ _ E) as [[Hok _]|(_ & m & Hm)]; [|discriminate Hm].
  unfold responseOk in Hok. apply andb_prop in Hok as [H1 H2].
  apply Z.leb_le in H1, H2. lia.
Qed.

Lemma success_after_call_means_2xx_witness :
  let req := Some (mkBody (Some "new.user@gmail.com") None None None (Some 5000)) in
  exists st data,
    fetch (acceptingEnv 0) (upstreamCall "ml-key" "new.user@gmail.com"
                              (mkBody (Some "new.user@gmail.com") None None None (Some 5000)))
    = Responded st data /\ 200 <= st <= 299.
Proof.
  apply (success_after_call_means_2xx (acceptingEnv 0) ∅
           (Some (mkBody (Some "new.user@gmail.com") None None None (Some 5000)))).
  - vm_compute. reflexivity.
  - vm_compute. reflexivity.
Defined.

(** X11. The periodic sweep never changes what a later request is
    answered: with a clock that has not gone back since the sweep, the
    handler gives the same response and makes the same call to the provider
    on the swept table as on the unswept one. *)
Theorem sweep_invisible_to_POST (s : Z) (env : Env) (cache : Cache) (req : option Body) :
  s <= now env ->
  response (POST env (cleanup s cache) req) = response (POST env cache req) /\
  upstreamCalls (POST env (cleanup s cache) req) = upstreamCalls (POST env cache req).
Proof.
  intros Hs. destruct req as [b|]; [|done].
  destruct (passesFilters b) as [e|] eqn:Hpass.
  - rewrite !(POST_after_filters env _ b e Hpass). cbn zeta.
    destruct (RateLimitProps.checkRateLimit_after_cleanup s (now env) cache e
                EMAIL_MAX_REQUESTS EMAIL_WINDOW_MS Hs) as [-> _];
      [vm_compute; discriminate|].
    destruct (limited _); [done|]. destruct (negb _); [done|].
    destruct (fetch env _) as [d|st parsed]; [done|].
    by destruct (mapUpstream st parsed).
  - unfold POST. unfold passesFilters in Hpass.
    destruct (truthyOpt (website b)); [done|].
    destruct (ltNumber _ _); [done|].
    destruct (email b) as [e'|]; [|done].
    destruct (negb (truthy e') || _); [done|].
    destruct (isSpamEmail e'); [done|].
    destruct (truthyOpt (name b) && _); [done|]. done.
Qed.

Lemma sweep_invisible_to_POST_witness :
  let cache : Cache := {[ "new.user@gmail.com" := mkRecord 1 0 ]} in
  let env := acceptingEnv (EMAIL_WINDOW_MS + 9) in
  let req := Some (mkBody (Some "new.user@gmail.com") None None None (Some 5000)) in
  response (POST env (cleanup (EMAIL_WINDOW_MS + 5) cache) req) = response (POST env cache req) /\
  upstreamCalls (POST env (cleanup (EMAIL_WINDOW_MS + 5) cache) req)
  = upstreamCalls (POST env cache req).
Proof.
  apply (sweep_invisible_to_POST (EMAIL_WINDOW_MS + 5) (acceptingEnv (EMAIL_WINDOW_MS + 9))
           {[ "new.user@gmail.com" := mkRecord 1 0 ]}
           (Some (mkBody (Some "new.user@gmail.com") None None None (Some 5000)))).
  vm_compute. discriminate.
Defined.

(** X12. When the provider answers status 422 with the JSON body [null] to
    a forwarded request, reading [data.errors] throws inside the [try]: the
    client receives the 500 "Network error" answer, not the provider's
    status, and the request has used up the email's slot. *)
Theorem null_body_422_is_network_error (env : Env) (cache : Cache) (b : Body)
    (e key : string) :
  passesFilters b = Some e ->
  limited (checkRateLimit (now env) cache e EMAIL_MAX_REQUESTS EMAIL_WINDOW_MS).1 = false ->
  apiKey env = Some key -> truthy key = true ->
  fetch env (upstreamCall key e b) = Responded 422 JsonNull ->
  response (POST env cache (Some b))
  = mkResponse (Error "Network error. Please try again later.") 500 /\
  (exists r, table (POST env cache (Some b)) !! e = Some r /\ lastAttempt r = now env).
Proof.
  intros Hpass Hlim Hkey Hk Hf. split.
  - rewrite (POST_forwarded env cache b e key Hpass Hlim Hkey Hk), Hf. reflexivity.
  - rewrite (POST_table env cache b e Hpass). apply checkRateLimit_stores.
Qed.

Lemma null_body_422_is_network_error_witness :
  let env := mkEnv 0 (Some "ml-key") (fun _ => Responded 422 JsonNull) in
  let b := mkBody (Some "new.user@gmail.com") None None None (Some 5000) in
  response (POST env ∅ (Some b))
  = mkResponse (Error "Network error. Please try again later.") 500 /\
  (exists r, table (POST env ∅ (Some b)) !! "new.user@gmail.com" = Some r
             /\ lastAttempt r = now env).
Proof.
  apply (null_body_422_is_network_error
           (mkEnv 0 (Some "ml-key") (fun _ => Responded 422 JsonNull)) ∅
           (mkBody (Some "new.user@gmail.com") None None None (Some 5000))
           "new.user@gmail.com" "ml-key");
    vm_compute; reflexivity.
Defined.

(** X13. The payload sent to the provider carries the email as submitted.
    The name is included, untrimmed, exactly when it is not blank; the
    interests exactly when they are not empty; and the [fields] object is
    left out altogether when neither is included. *)
Theorem payload_fields (e : string) (name interests : option string) :
  let p := buildSubscriber e name interests in
  sd_email p = e /\
  (sd_fields p = None <->
     (forall n, name = Some n -> trim n = "") /\
     (forall i, interests = Some i -> i = "")) /\
  (forall f, sd_fields p = Some f ->
     (forall n, f_name f = Some n <-> name = Some n /\ trim n <> "") /\
     (forall i, f_interests f = Some i <-> interests = Some i /\ i <> "")).
Proof.
  cbn zeta. unfold buildSubscriber. cbn [sd_email sd_fields]. split; [done|].
  assert (Hn : forall n, truthy n && negb (String.eqb (trim n) "")
                         = negb (String.eqb (trim n) "")).
  { intros n. unfold truthy. destruct (String.eqb_spec n "") as [->|]; done. }
  assert (Hi : forall i, truthy i && negb (String.eqb i "") = negb (String.eqb i "")).
  { intros i. unfold truthy. by destruct (String.eqb i ""). }
  destruct name as [n|], interests as [i|]; rewrite ?Hn, ?Hi;
    repeat match goal with
           | |- context [String.eqb ?x ""] => destruct (String.eqb_spec x "")
           end; cbn [negb f_name f_interests].
  all: split;
    [ split;
      [ intros H; try discriminate H; split; intros ? [= <-]; done
      | intros [H1 H2]; try done; try (by specialize (H1 _ eq_refl));
        try (by specialize (H2 _ eq_refl)) ]
    | intros f Hf; try discriminate Hf; injection Hf as <-; cbn [f_name f_interests];
      split; intros x;
      (split;
       [ intros H; try discriminate H; injection H as <-; by split
       | intros [H Hx]; try discriminate H; injection H as <-; done ]) ].
Qed.

End SubscribeProps.

(** ** What the patterns of the endpoint accept *)

Module PatternProps.

Import Regex JsString Subscribe RegexFacts.

Lemma lang_eps_inv s : lang Eps s -> s = [].
Proof. intros H. by inversion H. Qed.

Lemma lang_chr_inv p s : lang (Chr p) s -> exists c, s = [c] /\ p c = true.
Proof. intros H. inversion H; subst. eauto. Qed.

Lemma lang_seq_inv a b s :
  lang (Seq a b) s -> exists s1 s2, s = s1 ++ s2 /\ lang a s1 /\ lang b s2.
Proof. intros H. inversion H; subst. eauto. Qed.

Lemma lang_star_chr p s : lang (Star (Chr p)) s <-> Forall (fun c => p c = true) s.
Proof.
  split.
  - intros H. apply (lang_alphabet p _ _ H). by cbn.
  - induction 1 as [|c s Hc _ IH]; [constructor|].
    change (c :: s) with ([c] ++ s). constructor; [by constructor|done].
Qed.

Lemma lang_plus_chr p s :
  lang (Plus (Chr p)) s <-> s <> [] /\ Forall (fun c => p c = true) s.
Proof.
  unfold Plus. split.
  - intros H. split; [by apply (lang_nonempty (Seq (Chr p) (Star (Chr p))) s eq_refl H)|].
    apply (lang_alphabet p _ _ H). by cbn.
  - intros [Hne Hall]. destruct s as [|c s]; [done|].
    apply Forall_cons in Hall as [Hc Hall].
    change (c :: s) with ([c] ++ s). constructor; [by constructor|].
    by apply lang_star_chr.
Qed.

Lemma lang_UpTo_chr p n : forall s,
  lang (UpTo n (Chr p)) s <-> (length s <= n)%nat /\ Forall (fun c => p c = true) s.
Proof.
  induction n as [|n IH]; intros s; cbn [UpTo].
  - split.
    + intros H. apply lang_eps_inv in H as ->. by split; [|constructor].
    + intros [Hlen _]. destruct s; [constructor|cbn in Hlen; lia].
  - unfold Opt. split.
    + intros H. inversion H as [| | |? ? ? Hl|? ? ? Hr| |]; subst.
      * apply lang_eps_inv in Hl as ->. split; [cbn; lia|constructor].
      * apply lang_seq_inv in Hr as (s1 & s2 & -> & H1 & H2).
        apply lang_chr_inv in H1 as (c & -> & Hc). apply IH in H2 as [Hlen Hall].
        split; [cbn; lia|by constructor].
    + intros [Hlen Hall]. destruct s as [|c s]; [apply lang_alt_l; constructor|].
      apply Forall_cons in Hall as [Hc Hall]. apply lang_alt_r.
      change (c :: s) with ([c] ++ s). constructor; [by constructor|].
      apply IH. split; [cbn in Hlen; lia|done].
Qed.

(** X14. [NAME_REGEX] accepts exactly the strings of at most 50 characters
    made of ASCII letters, whitespace, apostrophes and hyphens; the empty
    string and a string of blanks are among them. *)
Theorem name_accepted_iff (n : string) :
  testWhole NAME_REGEX n = true <->
  (String.length n <= 50)%nat /\
  Forall (fun c => isAlpha c || isSpace c || oneOf "'-" c = true) (chars n).
Proof.
  unfold testWhole, NAME_REGEX. rewrite matches_iff, lang_UpTo_chr.
  fold (chars n). by rewrite length_chars.
Qed.

(** X15. [EMAIL_REGEX] accepts exactly the strings [local@x.y] whose three
    parts are not empty and hold neither whitespace nor [@]; an accepted
    string therefore has exactly one [@] and a dot inside its domain. *)
Theorem email_accepted_iff (e : string) :
  testWhole EMAIL_REGEX e = true <->
  exists l x y,
    chars e = l ++ "@"%char :: x ++ "."%char :: y /\
    l <> [] /\ x <> [] /\ y <> [] /\
    Forall (fun c => isSpace c = false /\ c <> "@"%char) (l ++ x ++ y).
Proof.
  assert (Hcls : forall s, Forall (fun c => notSpaceAt c = true) s <->
                           Forall (fun c => isSpace c = false /\ c <> "@"%char) s).
  { intros s. apply Forall_proper; [|done]. intros c. unfold notSpaceAt.
    rewrite negb_true_iff, orb_false_iff.
    destruct (Ascii.eqb_spec c "@"); split; intros [? ?]; done. }
  unfold testWhole. fold (chars e). rewrite matches_iff.
  change EMAIL_REGEX
    with (Seq (Plus (Chr notSpaceAt))
            (Seq (Chr (Ascii.eqb "@"))
               (Seq (Plus (Chr notSpaceAt))
                  (Seq (Chr (Ascii.eqb ".")) (Plus (Chr notSpaceAt)))))).
  split.
  - intros H.
    apply lang_seq_inv in H as (l & t1 & -> & Hl & H).
    apply lang_seq_inv in H as (a & t2 & -> & Ha & H).
    apply lang_seq_inv in H as (x & t3 & -> & Hx & H).
    apply lang_seq_inv in H as (d & y & -> & Hd & Hy).
    apply lang_chr_inv in Ha as (c1 & -> & Hc1). apply Ascii.eqb_eq in Hc1 as <-.
    apply lang_chr_inv in Hd as (c2 & -> & Hc2). apply Ascii.eqb_eq in Hc2 as <-.
    apply lang_plus_chr in Hl as [Hl1 Hl2], Hx as [Hx1 Hx2], Hy as [Hy1 Hy2].
    exists l, x, y. repeat split; try done.
    rewrite !Forall_app. by rewrite <- !Hcls.
  - intros (l & x & y & -> & Hl & Hx & Hy & Hall).
    rewrite !Forall_app, <- !Hcls in Hall. destruct Hall as (Hal & Hax & Hay).
    constructor; [by apply lang_plus_chr|].
    change ("@"%char :: x ++ "."%char :: y) with (["@"%char] ++ x ++ ["."%char] ++ y).
    constructor; [constructor; apply Ascii.eqb_refl|].
    constructor; [by apply lang_plus_chr|].
    constructor; [constructor; apply Ascii.eqb_refl|by apply lang_plus_chr].
Qed.

(** *** Letter case *)

Lemma allAscii_complete c : In c allAscii.
Proof.
  unfold allAscii. rewrite <- (ascii_nat_embedding c). apply in_map, in_seq.
  pose proof (nat_ascii_bounded c). lia.
Qed.

Lemma invariantUnderB_sound f r : invariantUnderB f r = true -> invariantUnder f r.
Proof.
  induction r as [| |p|a IHa b IHb|a IHa b IHb|a IHa];
    cbn [invariantUnderB invariantUnder]; try done.
  - intros H c. rewrite forallb_forall in H.
    specialize (H c (allAscii_complete c)). by apply Bool.eqb_prop in H.
  - intros H. apply andb_prop in H as [? ?]. auto.
  - intros H. apply andb_prop in H as [? ?]. auto.
Qed.

Lemma invariant_seq_ f a b :
  invariantUnder f a -> invariantUnder f b -> invariantUnder f (seq_ a b).
Proof. destruct a; cbn; tauto. Qed.

Lemma invariant_alt_ f a b :
  invariantUnder f a -> invariantUnder f b -> invariantUnder f (alt_ a b).
Proof. destruct a; destruct b; cbn; tauto. Qed.

Lemma invariant_der f c r : invariantUnder f r -> invariantUnder f (der c r).
Proof.
  induction r as [| |p|a IHa b IHb|a IHa b IHb|a IHa]; cbn [der invariantUnder]; try done.
  - intros _. by destruct (p c).
  - intros [Ha Hb]. apply invariant_alt_; [apply invariant_seq_; auto|].
    destruct (nullable a); [auto|done].
  - intros [Ha Hb]. apply invariant_alt_; auto.
  - intros Ha. apply invariant_seq_; auto.
Qed.

Lemma der_invariant f c r : invariantUnder f r -> der (f c) r = der c r.
Proof.
  induction r as [| |p|a IHa b IHb|a IHa b IHb|a IHa]; cbn [der invariantUnder]; try done.
  - intros H. by rewrite H.
  - intros [Ha Hb]. by rewrite IHa, IHb.
  - intros [Ha Hb]. by rewrite IHa, IHb.
  - intros Ha. by rewrite IHa.
Qed.

(** A pattern whose character tests cannot tell [c] from [f c] gives the
    same verdict on a string and on its image under [f]. *)
Lemma matches_map f s : forall r,
  invariantUnder f r -> matches r (map f s) = matches r s.
Proof.
  induction s as [|c s IH]; intros r Hr; cbn; [done|].
  rewrite (der_invariant f c r Hr). apply IH. by apply invariant_der.
Qed.

Lemma test_toLowerCase r s :
  invariantUnderB lowerChar r = true ->
  matches r (chars (toLowerCase s)) = matches r (chars s).
Proof.
  intros H. unfold toLowerCase. rewrite chars_ofChars.
  apply matches_map. by apply invariantUnderB_sound.
Qed.

(** X16. Neither the format check nor the spam check of the endpoint looks
    at letter case: an address and its lower-case form get the same verdict
    from [EMAIL_REGEX] and from [isSpamEmail]. *)
Theorem filters_ignore_case (e : string) :
  testWhole EMAIL_REGEX (toLowerCase e) = testWhole EMAIL_REGEX e /\
  isSpamEmail (toLowerCase e) = isSpamEmail e.
Proof.
  split.
  - apply test_toLowerCase. vm_compute. reflexivity.
  - unfold isSpamEmail, testSearch, SPAM_EMAIL_PATTERNS. cbn [existsb].
    rewrite !test_toLowerCase by (vm_compute; reflexivity). reflexivity.
Qed.

Lemma chars_app a b : chars (a ++ b)%string = chars a ++ chars b.
Proof. unfold chars. induction a as [|c a IH]; simpl; [done|by rewrite IH]. Qed.

(** X17. The spam patterns are not anchored, so text added before or after
    an address that matches one of them cannot clear it. *)
Theorem spam_verdict_survives_padding (pre e post : string) :
  isSpamEmail e = true ->
  isSpamEmail (pre ++ e ++ post)%string = true.
Proof.
  unfold isSpamEmail. rewrite !existsb_exists.
  intros (r & Hin & Hr). exists r. split; [done|].
  apply testSearch_iff in Hr as (a & mid & b & Heq & Hmid).
  apply testSearch_iff. exists (chars pre ++ a), mid, (b ++ chars post).
  split; [|done]. rewrite !chars_app, Heq. by rewrite <- !app_assoc.
Qed.

Lemma spam_verdict_survives_padding_witness :
  isSpamEmail ("mailto:" ++ "test@test.com" ++ "?subject=hi")%string = true.
Proof.
  apply (spam_verdict_survives_padding "mailto:" "test@test.com" "?subject=hi").
  vm_compute. reflexivity.
Defined.

End PatternProps.

(** ** The email validation utility: verdicts at every level *)

Module EmailValidatorProps.

Import Regex JsString EmailValidator RegexFacts.

(** The verdict as the conjunction of the checks that can fail, in the
    order in which the function makes them. *)
Lemma isValid_eq e o :
  let lvl := opt_level o in
  let t := trim e in
  let n := toLowerCase t in
  isValid (validateEmailAdvanced (Some e) o) =
    negb (String.eqb t "")
    && negb (maxLength o <? jsLength t)
    && testWhole (EMAIL_PATTERNS lvl) n
    && match lastIndexOf "@" n with
       | Some i =>
           let lp := sliceTo i n in
           let dp := sliceFrom (S i) n in
           negb (jsLength lp =? 0)
           && negb (64 <? jsLength lp)
           && negb (jsLength dp =? 0)
           && negb (253 <? jsLength dp)
           && negb (includesDotDot n)
           && negb (negb (length (allowedDomains o) =? 0)%nat
                    && negb (includesStr (allowedDomains o) dp))
           && negb (includesStr (blockedDomains o) dp)
           && negb (detectSpam o
                    && aboveSpamThreshold
                         (if detectSpam o
                          then Z.of_nat (spamIndicators n) # Pos.of_nat (length SPAM_PATTERNS)
                          else 0%Q)
                    && isStrictLevel lvl)
           && negb (checkDisposable o && bool_decide (dp ∈ DISPOSABLE_DOMAINS)
                    && isStrictLevel lvl)
           && negb (isStrictLevel lvl
                    && match tldMatch dp with
                       | Some tld => jsLength tld <? 2
                       | None => true
                       end)
           && negb (isParanoid lvl && (startsWith "." lp || endsWith "." lp))
           && negb (isParanoid lvl && (startsWith "-" dp || endsWith "-" dp))
       | None => false
       end.
Proof.
  cbn zeta. unfold validateEmailAdvanced.
  destruct (String.eqb (trim e) ""); [reflexivity|].
  destruct (maxLength o <? jsLength (trim e)); [reflexivity|].
  destruct (testWhole (EMAIL_PATTERNS (opt_level o)) (toLowerCase (trim e)));
    [|reflexivity].
  destruct (lastIndexOf "@" (toLowerCase (trim e))) as [i|]; [|reflexivity].
  destruct (jsLength (sliceTo i (toLowerCase (trim e))) =? 0); [reflexivity|].
  destruct (64 <? jsLength (sliceTo i (toLowerCase (trim e)))); [reflexivity|].
  destruct (jsLength (sliceFrom (S i) (toLowerCase (trim e))) =? 0); [reflexivity|].
  destruct (253 <? jsLength (sliceFrom (S i) (toLowerCase (trim e)))); [reflexivity|].
  destruct (includesDotDot (toLowerCase (trim e))); [reflexivity|].
  destruct (negb (length (allowedDomains o) =? 0)%nat
            && negb (includesStr (allowedDomains o)
                       (sliceFrom (S i) (toLowerCase (trim e))))); [reflexivity|].
  destruct (includesStr (blockedDomains o) (sliceFrom (S i) (toLowerCase (trim e))));
    [reflexivity|].
  cbn [negb andb].
  repeat match goal with
         | |- isValid (if ?c then _ else _) = _ =>
             destruct c;
             [cbn [negb andb];
              repeat match goal with
                     | |- context [if ?d then _ else _] => destruct d
                     end; reflexivity
             |cbn [negb andb]]
         end.
  repeat match goal with
         | |- context [if ?d then _ else _] => destruct d
         end; reflexivity.
Qed.

(** Walks through the early returns of [validateEmailAdvanced]. *)
Ltac walk :=
  unfold validateEmailAdvanced; cbn zeta;
  repeat match goal with
         | |- context [if ?c then _ else _] => destruct c
         | |- context [match ?x with Some _ => _ | None => _ end] => destruct x
         end.

(** X18. A result is valid exactly when it lists no error, and it never
    lists more than one: validation stops at the first failed check. *)
Theorem valid_iff_no_error (input : option string) (o : ValidateEmailOptions) :
  let r := validateEmailAdvanced input o in
  (isValid r = true <-> errors r = []) /\ (length (errors r) <= 1)%nat.
Proof.
  cbn zeta. destruct input as [e|]; [|by split].
  walk; cbn; (split; [split; intros H; discriminate H || reflexivity|lia]).
Qed.

Lemma lang_mustContain c r s : lang r s -> mustContain c r -> c ∈ s.
Proof.
  induction 1 as [|p d Hp|a b s t Ha IHa Hb IHb|a b s Ha IHa|a b s Hb IHb|
                  |a s t Ha IHa Hs IHs]; cbn [mustContain]; try done.
  - intros H. rewrite (H d Hp). apply elem_of_cons. by left.
  - intros [H|H]; apply elem_of_app; [left|right]; auto.
  - intros [H _]. auto.
  - intros [_ H]. auto.
Qed.

Lemma patterns_need_at lvl : mustContain "@" (EMAIL_PATTERNS lvl).
Proof.
  destruct lvl; unfold EMAIL_PATTERNS, Plus; cbn [Cat Lit map list_ascii_of_string mustContain];
    repeat first [ left; intros x Hx; apply Ascii.eqb_eq in Hx; by subst | right ].
Qed.

(** X19. No validation level and no option accepts a string without [@]. *)
Theorem no_at_rejected_everywhere (e : string) (o : ValidateEmailOptions) :
  "@"%char ∉ chars e ->
  isValid (validateEmailAdvanced (Some e) o) = false.
Proof.
  intros Hnoat. rewrite isValid_eq. cbn zeta.
  destruct (testWhole (EMAIL_PATTERNS (opt_level o)) (toLowerCase (trim e))) eqn:Hre;
    [|by rewrite andb_false_r].
  exfalso. apply Hnoat, trim_incl, toLowerCase_at.
  apply matches_lang in Hre. apply (lang_mustContain _ _ _ Hre), patterns_need_at.
Qed.

Lemma no_at_rejected_everywhere_witness :
  isValid (validateEmailAdvanced (Some "new.user.gmail.com")
             (mkOptions basic false false [] [] 254)) = false.
Proof.
  apply (no_at_rejected_everywhere "new.user.gmail.com").
  intros H. repeat (apply elem_of_cons in H as [H|H]; [discriminate|]).
  by apply elem_of_nil in H.
Defined.

Lemma includesStr_In xs s : includesStr xs s = true <-> In s xs.
Proof.
  unfold includesStr. rewrite existsb_exists. split.
  - intros (x & Hin & Hx). apply String.eqb_eq in Hx. by subst.
  - intros Hin. exists s. split; [done|apply String.eqb_refl].
Qed.

Lemma fields_when_valid e o :
  isValid (validateEmailAdvanced (Some e) o) = true ->
  let r := validateEmailAdvanced (Some e) o in
  let n := toLowerCase (trim e) in
  email r = trim e /\ normalized r = Some n /\
  domain r = match lastIndexOf "@" n with
             | Some i => Some (mkDomain (sliceFrom (S i) n)
                                 (bool_decide (sliceFrom (S i) n ∈ COMMON_DOMAINS)))
             | None => None
             end.
Proof.
  cbn zeta. walk; cbn; intros H; try discriminate H; done.
Qed.

(** X20. What a valid result guarantees, at every level and for all
    options, on strings of code units below 256: [email] is the trimmed
    input, which is within [maxLength] (the length check is made on the
    trimmed input, before lower-casing); [normalized] is its lower-case
    form, which is not empty and matched by the pattern of the level; the
    local part of [normalized] before the last [@] has 1 to 64 characters
    and the domain after it, reported in [domain.name], 1 to 253; there are
    no two consecutive dots; the domain is not blocked and, when an allow
    list is given, is on it. *)
Theorem valid_result_guarantees (e : string) (o : ValidateEmailOptions) :
  isValid (validateEmailAdvanced (Some e) o) = true ->
  let r := validateEmailAdvanced (Some e) o in
  let n := toLowerCase (trim e) in
  exists i,
    lastIndexOf "@" n = Some i /\
    let lp := sliceTo i n in
    let dp := sliceFrom (S i) n in
    email r = trim e /\ normalized r = Some n /\
    domain r = Some (mkDomain dp (bool_decide (dp ∈ COMMON_DOMAINS))) /\
    jsLength (trim e) <= maxLength o /\ n <> "" /\
    testWhole (EMAIL_PATTERNS (opt_level o)) n = true /\
    1 <= jsLength lp <= 64 /\ 1 <= jsLength dp <= 253 /\
    includesDotDot n = false /\
    (allowedDomains o = [] \/ In dp (allowedDomains o)) /\
    ~ In dp (blockedDomains o).
Proof.
  intros Hv. cbn zeta.
  destruct (fields_when_valid e o Hv) as (Hem & Hnorm & Hdom). cbn zeta in *.
  rewrite isValid_eq in Hv. cbn zeta in Hv.
  destruct (lastIndexOf "@" (toLowerCase (trim e))) as [i|];
    [|by rewrite andb_false_r in Hv].
  exists i. split; [done|]. cbn zeta.
  repeat match goal with
         | H : _ && _ = true |- _ => apply andb_prop in H as [? ?]
         end.
  repeat match goal with
         | H : negb _ = true |- _ => apply negb_true_iff in H
         end.
  pose proof (length_toLowerCase (trim e)) as Hlen.
  assert (0 <= jsLength (sliceTo i (toLowerCase (trim e)))) by (unfold jsLength; lia).
  assert (0 <= jsLength (sliceFrom (S i) (toLowerCase (trim e)))) by (unfold jsLength; lia).
  repeat match goal with
         | H : (_ <? _) = false |- _ => apply Z.ltb_ge in H
         | H : (_ =? _) = false |- _ => apply Z.eqb_neq in H
         end.
  repeat split; try done; try lia.
  - intros Hn. rewrite Hn in Hlen. destruct (String.eqb_spec (trim e) ""); [done|].
    destruct (trim e); [done|]. unfold jsLength in Hlen. cbn in Hlen. lia.
  - match goal with
    | H : negb (length _ =? 0)%nat && negb (includesStr _ _) = false |- _ =>
        apply andb_false_iff in H as [Hallow|Hallow]; apply negb_false_iff in Hallow
    end.
    + left. apply Nat.eqb_eq in Hallow. by destruct (allowedDomains o).
    + right. by apply includesStr_In.
  - intros Hin. apply includesStr_In in Hin. congruence.
Qed.

Lemma valid_result_guarantees_witness :
  let e := "  Jo.Doe@Gmail.com " in
  let o := mkOptions strict true true ["spam.example"] ["gmail.com"] 254 in
  let r := validateEmailAdvanced (Some e) o in
  let n := toLowerCase (trim e) in
  exists i,
    lastIndexOf "@" n = Some i /\
    let lp := sliceTo i n in
    let dp := sliceFrom (S i) n in
    email r = trim e /\ normalized r = Some n /\
    domain r = Some (mkDomain dp (bool_decide (dp ∈ COMMON_DOMAINS))) /\
    jsLength (trim e) <= maxLength o /\ n <> "" /\
    testWhole (EMAIL_PATTERNS (opt_level o)) n = true /\
    1 <= jsLength lp <= 64 /\ 1 <= jsLength dp <= 253 /\
    includesDotDot n = false /\
    (allowedDomains o = [] \/ In dp (allowedDomains o)) /\
    ~ In dp (blockedDomains o).
Proof.
  apply (valid_result_guarantees "  Jo.Doe@Gmail.com "
           (mkOptions strict true true ["spam.example"] ["gmail.com"] 254)).
  vm_compute. reflexivity.
Defined.

Lemma nonstrict_flags input lvl cd ds blocked allowed maxLen :
  lvl = basic \/ lvl = standard ->
  isValid (validateEmailAdvanced input (mkOptions lvl cd ds blocked allowed maxLen))
  = isValid (validateEmailAdvanced input (mkOptions lvl false false blocked allowed maxLen)).
Proof.
  intros Hl. destruct input as [e|]; [|done].
  rewrite !isValid_eq. cbn zeta.
  cbn [opt_level maxLength allowedDomains blockedDomains detectSpam checkDisposable].
  assert (isStrictLevel lvl = false) as -> by (by destruct Hl as [-> | ->]).
  destruct (lastIndexOf "@" (toLowerCase (trim e))); [|done].
  by rewrite !andb_false_r.
Qed.

(** X21. Below the strict levels, spam and disposable-domain detection only
    add warnings: at the basic and standard levels the verdict is the same
    with the two detections on or off. *)
Theorem detections_only_warn (input : option string) (lvl : ValidationLevel)
    (cd ds : bool) (blocked allowed : list string) (maxLen : Z) :
  lvl = basic \/ lvl = standard ->
  isValid (validateEmailAdvanced input (mkOptions lvl cd ds blocked allowed maxLen))
  = isValid (validateEmailAdvanced input (mkOptions lvl false false blocked allowed maxLen)).
Proof. apply nonstrict_flags. Qed.

Lemma detections_only_warn_witness :
  isValid (validateEmailAdvanced (Some "test@mailinator.com")
             (mkOptions standard true true [] [] 254))
  = isValid (validateEmailAdvanced (Some "test@mailinator.com")
               (mkOptions standard false false [] [] 254)).
Proof.
  apply (detections_only_warn (Some "test@mailinator.com") standard true true [] [] 254).
  right. reflexivity.
Defined.

(** *** Normalisation *)

Lemma isSpace_lowerChar c : isSpace (lowerChar c) = isSpace c.
Proof. destruct c as [[] [] [] [] [] [] [] []]; vm_compute; reflexivity. Qed.

Lemma lowerChar_idem c : lowerChar (lowerChar c) = lowerChar c.
Proof. destruct c as [[] [] [] [] [] [] [] []]; vm_compute; reflexivity. Qed.

Lemma toLowerCase_idem s : toLowerCase (toLowerCase s) = toLowerCase s.
Proof.
  unfold toLowerCase. rewrite chars_ofChars, map_map. f_equal.
  apply map_ext. intros c. apply lowerChar_idem.
Qed.

Lemma dropSpace_idem l : dropSpace (dropSpace l) = dropSpace l.
Proof.
  induction l as [|c l IH]; [done|]. cbn. destruct (isSpace c) eqn:E; [done|].
  cbn. by rewrite E.
Qed.

Lemma dropSpace_map_lower l : dropSpace (map lowerChar l) = map lowerChar (dropSpace l).
Proof.
  induction l as [|c l IH]; [done|]. cbn. rewrite isSpace_lowerChar.
  by destruct (isSpace c).
Qed.

Lemma dropSpace_suffix l : exists pre, l = pre ++ dropSpace l.
Proof.
  induction l as [|c l (pre & IH)]; [by exists []|]. cbn.
  destruct (isSpace c); [|by exists []]. exists (c :: pre). cbn. by rewrite <- IH.
Qed.

Lemma dropSpace_length l : (length (dropSpace l) <= length l)%nat.
Proof.
  destruct (dropSpace_suffix l) as (pre & H). rewrite H at 2. rewrite length_app. lia.
Qed.

Lemma dropSpace_fixed_head c l : dropSpace (c :: l) = c :: l -> isSpace c = false.
Proof.
  cbn. destruct (isSpace c); [|done]. intros H.
  pose proof (dropSpace_length l) as Hlen. rewrite H in Hlen. cbn in Hlen. lia.
Qed.

(** Dropping the blanks at the end keeps a list without blanks in front
    that way. *)
Lemma dropSpace_rev_fixed l :
  dropSpace l = l ->
  dropSpace (rev (dropSpace (rev l))) = rev (dropSpace (rev l)).
Proof.
  intros Hfix. destruct (dropSpace_suffix (rev l)) as (pre & Hpre).
  assert (Hl : l = rev (dropSpace (rev l)) ++ rev pre).
  { rewrite <- rev_app_distr, <- Hpre. by rewrite rev_involutive. }
  destruct (rev (dropSpace (rev l))) as [|c t] eqn:E; [done|].
  rewrite Hl in Hfix. cbn [app] in Hfix. apply dropSpace_fixed_head in Hfix.
  cbn. by rewrite Hfix.
Qed.

Lemma trim_idem s : trim (trim s) = trim s.
Proof.
  unfold trim. rewrite chars_ofChars. f_equal.
  rewrite (dropSpace_rev_fixed _ (dropSpace_idem (chars s))).
  by rewrite rev_involutive, dropSpace_idem.
Qed.

Lemma trim_toLowerCase s : trim (toLowerCase s) = toLowerCase (trim s).
Proof.
  unfold trim, toLowerCase. rewrite !chars_ofChars. f_equal.
  by rewrite dropSpace_map_lower, <- map_rev, dropSpace_map_lower, <- map_rev.
Qed.

Lemma normalized_eq e o :
  normalized (validateEmailAdvanced (Some e) o) =
  if String.eqb (trim e) "" || (maxLength o <? jsLength (trim e))
  then None else Some (toLowerCase (trim e)).
Proof.
  destruct (String.eqb (trim e) "") eqn:E1;
    [by unfold validateEmailAdvanced; rewrite E1|].
  destruct (maxLength o <? jsLength (trim e)) eqn:E2;
    [by unfold validateEmailAdvanced; rewrite E1, E2|].
  cbn [orb]. unfold validateEmailAdvanced. rewrite E1, E2. cbn zeta.
  repeat match goal with
         | |- context [if ?c then _ else _] => destruct c
         | |- context [match ?x with Some _ => _ | None => _ end] => destruct x
         end; reflexivity.
Qed.

(** X22. Normalisation is stable.  When a result carries a normalised form,
    validating that form with the same options gives the same verdict as
    the original input did and normalises it to itself. *)
Theorem normalized_is_stable (e n : string) (o : ValidateEmailOptions) :
  normalized (validateEmailAdvanced (Some e) o) = Some n ->
  isValid (validateEmailAdvanced (Some n) o) = isValid (validateEmailAdvanced (Some e) o) /\
  normalized (validateEmailAdvanced (Some n) o) = Some n.
Proof.
  rewrite normalized_eq. intros Hn.
  destruct (String.eqb (trim e) "") eqn:E1; [done|].
  destruct (maxLength o <? jsLength (trim e)) eqn:E2; [done|].
  injection Hn as <-.
  assert (Ht : trim (toLowerCase (trim e)) = toLowerCase (trim e))
    by (by rewrite trim_toLowerCase, trim_idem).
  assert (E1' : String.eqb (toLowerCase (trim e)) "" = false).
  { apply String.eqb_neq. intros H. apply String.eqb_neq in E1.
    pose proof (length_toLowerCase (trim e)) as Hlen. rewrite H in Hlen.
    destruct (trim e); [done|]. unfold jsLength in Hlen. cbn in Hlen. lia. }
  split.
  - rewrite !isValid_eq. cbn zeta. rewrite Ht, toLowerCase_idem, length_toLowerCase.
    by rewrite E1, E1', E2.
  - rewrite normalized_eq, Ht, toLowerCase_idem, length_toLowerCase. by rewrite E1', E2.
Qed.

Lemma normalized_is_stable_witness :
  let o := mkOptions strict true true [] [] 254 in
  isValid (validateEmailAdvanced (Some "jo.doe@gmail.com") o)
  = isValid (validateEmailAdvanced (Some "  Jo.Doe@Gmail.com ") o) /\
  normalized (validateEmailAdvanced (Some "jo.doe@gmail.com") o) = Some "jo.doe@gmail.com".
Proof.
  apply (normalized_is_stable "  Jo.Doe@Gmail.com " "jo.doe@gmail.com"
           (mkOptions strict true true [] [] 254)).
  vm_compute. reflexivity.
Defined.

(** *** The spam score and the helpers built on the validator *)

Lemma spamIndicators_bound s : (spamIndicators s <= 8)%nat.
Proof.
  unfold spamIndicators.
  etransitivity; [apply length_filter|]. by vm_compute.
Qed.

Lemma spamScore_cases e o :
  let r := validateEmailAdvanced (Some e) o in
  spamScore r = 0%Q \/
  (detectSpam o = true /\
   spamScore r = Z.of_nat (spamIndicators (toLowerCase (trim e)))
                 # Pos.of_nat (length SPAM_PATTERNS)).
Proof.
  cbn zeta. unfold validateEmailAdvanced. destruct (detectSpam o); cbn zeta.
  - repeat match goal with
           | |- context [if ?c then _ else _] => destruct c
           | |- context [match ?x with Some _ => _ | None => _ end] => destruct x
           end; cbn [spamScore reject warn]; auto.
  - repeat match goal with
           | |- context [if ?c then _ else _] => destruct c
           | |- context [match ?x with Some _ => _ | None => _ end] => destruct x
           end; cbn [spamScore reject warn]; auto.
Qed.

(** X23. The spam score is the share of the eight patterns that match: it
    lies between 0 and 1, and it is 0 whenever spam detection is off. *)
Theorem spamScore_range (input : option string) (o : ValidateEmailOptions) :
  let r := validateEmailAdvanced input o in
  (0 <= spamScore r)%Q /\ (spamScore r <= 1)%Q /\
  (detectSpam o = false -> spamScore r = 0%Q).
Proof.
  cbn zeta. destruct input as [e|]; [|by repeat split].
  destruct (spamScore_cases e o) as [->|[Hds ->]]; [by repeat split|].
  pose proof (spamIndicators_bound (toLowerCase (trim e))) as Hk.
  change (Pos.of_nat (length SPAM_PATTERNS)) with 8%positive.
  repeat split.
  - unfold Qle. cbn [Qnum Qden]. lia.
  - unfold Qle. cbn [Qnum Qden]. lia.
  - congruence.
Qed.

Lemma above_threshold_iff k :
  aboveSpamThreshold (Z.of_nat k # Pos.of_nat (length SPAM_PATTERNS)) = true
  <-> (3 <= k)%nat.
Proof.
  change (Pos.of_nat (length SPAM_PATTERNS)) with 8%positive.
  unfold aboveSpamThreshold, Qle_bool. cbn [Qnum Qden].
  rewrite negb_true_iff, Z.leb_gt. lia.
Qed.

(** The score under the options of [validateEmailForAPI]. *)
Lemma api_spamScore e :
  let r := validateEmailAdvanced (Some e) (mkOptions standard false true [] [] 254) in
  (isValid r = true ->
   spamScore r = Z.of_nat (spamIndicators (toLowerCase (trim e)))
                 # Pos.of_nat (length SPAM_PATTERNS)) /\
  (isValid r = false -> spamScore r = 0%Q).
Proof.
  cbn zeta. unfold validateEmailAdvanced.
  cbn [opt_level maxLength allowedDomains blockedDomains detectSpam checkDisposable
       isStrictLevel isParanoid andb length Nat.eqb negb includesStr existsb].
  rewrite !andb_false_r.
  repeat match goal with
         | |- context [if ?c then _ else _] => destruct c
         | |- context [match ?x with Some _ => _ | None => _ end] => destruct x
         end; (split; intros H; [try discriminate H|try discriminate H]; reflexivity).
Qed.

(** X24. [validateEmailForAPI] reports the verdict of [validateEmail] at the
    standard level.  It reports spam only for a valid address, and then
    exactly when at least three of the eight patterns match the normalised
    address; a valid address comes with its normalised form. *)
Theorem validateEmailForAPI_verdicts (input : option string) :
  let a := validateEmailForAPI input in
  api_isValid a = validateEmail input standard /\
  (isSpam a = true -> api_isValid a = true) /\
  (forall e, input = Some e -> api_isValid a = true ->
     (isSpam a = true <-> (3 <= spamIndicators (toLowerCase (trim e)))%nat) /\
     api_normalized a = Some (toLowerCase (trim e))).
Proof.
  cbn zeta. unfold validateEmailForAPI, validateEmail. cbn [api_isValid isSpam api_normalized].
  split; [apply nonstrict_flags; by right|].
  destruct input as [e|]; [|by split].
  destruct (api_spamScore e) as [Hs1 Hs0]. cbn zeta in Hs1, Hs0.
  destruct (isValid (validateEmailAdvanced (Some e) _)) eqn:Hv.
  - rewrite (Hs1 eq_refl).
    split; [done|]. intros e' [= <-] _. split; [apply above_threshold_iff|].
    destruct (fields_when_valid e _ Hv) as (_ & Hn & _). cbn zeta in Hn. rewrite Hn.
    rewrite isValid_eq in Hv. cbn zeta in Hv.
    unfold truthy. destruct (String.eqb_spec (toLowerCase (trim e)) "") as [E|]; [|done].
    pose proof (length_toLowerCase (trim e)) as Hlen. rewrite E in Hlen.
    destruct (trim e); [done|]. unfold jsLength in Hlen. cbn in Hlen. lia.
  - rewrite (Hs0 eq_refl). split; [done|]. by intros e' _ H.
Qed.

(** X25. The legacy validator gives exactly the verdict of the endpoint's
    format check: lower-casing the input before the test changes nothing. *)
Theorem validateEmailLegacy_is_format_check (e : string) :
  validateEmailLegacy e = testWhole Subscribe.EMAIL_REGEX e /\
  validateEmailLegacy e = testWhole (EMAIL_PATTERNS basic) e.
Proof.
  split; unfold validateEmailLegacy, testWhole;
    apply PatternProps.test_toLowerCase; vm_compute; reflexivity.
Qed.

End EmailValidatorProps.

(** ** The text truncation utility *)

Module TruncateProps.

Import Regex JsString Truncate RegexFacts.

Lemma jsLength_app a b : jsLength (a ++ b)%string = jsLength a + jsLength b.
Proof.
  unfold jsLength. rewrite <- !length_chars, PatternProps.chars_app, length_app. lia.
Qed.

Lemma jsLength_trim s : jsLength (trim s) <= jsLength s.
Proof.
  unfold trim. rewrite jsLength_ofChars, length_rev. unfold jsLength.
  rewrite <- length_chars.
  pose proof (EmailValidatorProps.dropSpace_length (rev (dropSpace (chars s)))) as H1.
  pose proof (EmailValidatorProps.dropSpace_length (chars s)) as H2.
  rewrite length_rev in H1. unfold chars in *. lia.
Qed.

Lemma jsLength_sliceTo n s : jsLength (sliceTo n s) = Z.min (Z.of_nat n) (jsLength s).
Proof.
  unfold sliceTo. rewrite jsLength_ofChars, length_take, length_chars.
  unfold jsLength. lia.
Qed.

Lemma jsLength_nonneg s : 0 <= jsLength s.
Proof. unfold jsLength. lia. Qed.

(** The implementation never returns more than [maxLength] characters. *)
Lemma truncateTextImpl_bounded t config :
  0 < c_maxLength config ->
  jsLength (truncateTextImpl t config) <= c_maxLength config.
Proof.
  intros Hm. unfold truncateTextImpl.
  destruct (jsLength t <=? c_maxLength config) eqn:E; [by apply Z.leb_le|].
  pose proof (jsLength_nonneg (c_ellipsis config)) as Hell.
  cbn zeta.
  destruct (Nat.eqb_spec (Z.to_nat (Z.max 0 (c_maxLength config - jsLength (c_ellipsis config)))) 0)
    as [Hav|Hav].
  - rewrite jsLength_sliceTo. lia.
  - set (avail := Z.to_nat (Z.max 0 (c_maxLength config - jsLength (c_ellipsis config)))) in *.
    assert (Havail : Z.of_nat avail = c_maxLength config - jsLength (c_ellipsis config))
      by (unfold avail in *; lia).
    pose proof (jsLength_sliceTo avail t) as Htr.
    match goal with
    | |- context [match ?x with Some _ => _ | None => _ end] => destruct x as [lse|]
    end.
    + rewrite jsLength_app.
      pose proof (jsLength_trim (sliceTo lse (sliceTo avail t))) as H1.
      pose proof (jsLength_sliceTo lse (sliceTo avail t)) as H2.
      destruct (endsSentence _); [change (jsLength "") with 0|]; lia.
    + rewrite jsLength_app.
      match goal with
      | |- jsLength (trim ?x) + _ <= _ =>
          pose proof (jsLength_trim x) as H1;
          assert (jsLength x <= Z.of_nat avail) as H2
      end.
      { destruct (c_wordBoundary config && _); [|lia].
        destruct (lastSeparatorBelow _ _ _) as [i|]; [|lia].
        destruct (PrimFloat.ltb _ _); [|lia].
        rewrite jsLength_sliceTo. lia. }
      lia.
Qed.

(** X26. [truncateText] throws only for a negative [maxLength] with a text
    that is not [null], and then with the message on [maxLength]; whenever
    it returns, the string has at most [maxLength] characters, ellipsis
    included. *)
Theorem truncateText_within_budget (input : option string) (options : OptionsArg) :
  let m := c_maxLength (fullConfig options) in
  (forall msg, truncateText input options = Thrown msg <->
     input <> None /\ m < 0 /\ msg = "maxLength must be non-negative") /\
  (forall s, truncateText input options = Returned s -> jsLength s <= Z.max 0 m).
Proof.
  cbn zeta. unfold truncateText. destruct input as [t|].
  - destruct (Z.ltb_spec (c_maxLength (fullConfig options)) 0) as [Hneg|Hpos].
    + split; [|done]. intros msg. split.
      * intros [= <-]. done.
      * intros (_ & _ & ->). done.
    + destruct (Z.eqb_spec (c_maxLength (fullConfig options)) 0) as [H0|H0].
      * split; [intros msg; split; [done|intros (_ & ? & _); lia]|].
        intros s [= <-]. change (jsLength "") with 0. lia.
      * split; [intros msg; split; [done|intros (_ & ? & _); lia]|].
        intros s [= <-].
        pose proof (truncateTextImpl_bounded t (fullConfig options)). lia.
  - split; [intros msg; split; [done|by intros (? & _)]|].
    intros s [= <-]. change (jsLength "") with 0. lia.
Qed.

Lemma jsLength_zero s : jsLength s <= 0 -> s = "".
Proof. destruct s; [done|]. unfold jsLength. cbn. lia. Qed.

(** X27. With a [maxLength] that is not negative, [truncateTextDetailed]
    returns a result whose [wasTruncated] flag is set exactly when the text
    is longer than [maxLength]; a text that fits is returned unchanged, and
    [finalLength] is the length of the returned text, at most [maxLength]. *)
Theorem truncateTextDetailed_flags (input : option string) (options : OptionsArg) :
  let m := c_maxLength (fullConfig options) in
  0 <= m ->
  exists r,
    truncateTextDetailed input options = Returned r /\
    originalLength r = jsLength (default "" input) /\
    finalLength r = jsLength (text r) /\
    finalLength r <= m /\
    wasTruncated r = (m <? originalLength r) /\
    (wasTruncated r = false -> text r = default "" input).
Proof.
  cbn zeta. intros Hm. unfold truncateTextDetailed, truncateText.
  set (t := default "" input).
  destruct (Z.ltb_spec (c_maxLength (fullConfig options)) 0) as [|_]; [lia|].
  destruct (Z.eqb_spec (c_maxLength (fullConfig options)) 0) as [H0|H0].
  - eexists. split; [reflexivity|]. cbn [originalLength finalLength text wasTruncated].
    rewrite H0. change (jsLength "") with 0. repeat split; try done.
    intros Hw. apply Z.ltb_ge in Hw. symmetry. by apply jsLength_zero.
  - eexists. split; [reflexivity|]. cbn [originalLength finalLength text wasTruncated].
    pose proof (truncateTextImpl_bounded t (fullConfig options)) as Hb.
    assert (Hfit : jsLength t <= c_maxLength (fullConfig options) ->
                   truncateTextImpl t (fullConfig options) = t).
    { intros Hle. unfold truncateTextImpl. apply Z.leb_le in Hle. by rewrite Hle. }
    repeat split; try done; [lia| |].
    + destruct (Z.ltb_spec (c_maxLength (fullConfig options)) (jsLength t)) as [Hlt|Hge].
      * apply Z.ltb_lt. lia.
      * rewrite Hfit by done. apply Z.ltb_irrefl.
    + intros Hw. apply Z.ltb_ge in Hw. apply Hfit. lia.
Qed.

Lemma truncateTextDetailed_flags_witness :
  exists r,
    truncateTextDetailed (Some "This is a very long sentence") (LegacyLength 15)
    = Returned r /\
    originalLength r = jsLength (default "" (Some "This is a very long sentence")) /\
    finalLength r = jsLength (text r) /\
    finalLength r <= 15 /\
    wasTruncated r = (15 <? originalLength r) /\
    (wasTruncated r = false -> text r = default "" (Some "This is a very long sentence")).
Proof.
  apply (truncateTextDetailed_flags (Some "This is a very long sentence") (LegacyLength 15)).
  vm_compute. discriminate.
Defined.

Lemma lastSeparatorBelow_Some sep l n i :
  lastSeparatorBelow sep l n = Some i ->
  (i < n)%nat /\ exists c, l !! i = Some c /\ sep c = true.
Proof.
  induction n as [|n IH]; cbn; [done|].
  destruct (l !! n) as [c|] eqn:E.
  - destruct (sep c) eqn:Hs.
    + intros [= <-]. split; [lia|]. eauto.
    + intros H. destruct (IH H) as [? ?]. split; [lia|done].
  - intros H. destruct (IH H) as [? ?]. split; [lia|done].
Qed.

Lemma truncated_shape_cases (t : string) (options : OptionsArg) :
  let c := fullConfig options in
  let room := c_maxLength c - jsLength (c_ellipsis c) in
  c_maxLength c < jsLength t ->
  0 < room ->
  c_preserveSentences c = false ->
  exists p rest,
    chars t = p ++ rest /\
    truncateText (Some t) options
    = Returned (trim (ofChars p) ++ c_ellipsis c)%string /\
    (Z.of_nat (length p) = room \/
     (c_wordBoundary c = true /\ Z.of_nat (length p) < room /\
      exists sepc rest', rest = sepc :: rest' /\ c_separators c sepc = true)).
Proof.
  cbn zeta. set (c := fullConfig options). intros Hlong Hroom Hps.
  pose proof (jsLength_nonneg (c_ellipsis c)) as Hell.
  unfold truncateText. fold c.
  destruct (Z.ltb_spec (c_maxLength c) 0) as [|_]; [lia|].
  destruct (Z.eqb_spec (c_maxLength c) 0) as [|_]; [lia|].
  unfold truncateTextImpl. rewrite Hps.
  destruct (Z.leb_spec (jsLength t) (c_maxLength c)) as [|_]; [lia|]. cbn zeta.
  set (avail := Z.to_nat (Z.max 0 (c_maxLength c - jsLength (c_ellipsis c)))).
  assert (Havail : Z.of_nat avail = c_maxLength c - jsLength (c_ellipsis c))
    by (unfold avail; lia).
  destruct (Nat.eqb_spec avail 0) as [|_]; [lia|].
  assert (Hlen : (avail < length (chars t))%nat).
  { rewrite length_chars. unfold jsLength in Hlong. lia. }
  assert (Hfull : exists rest, chars t = take avail (chars t) ++ rest /\
                               Z.of_nat (length (take avail (chars t)))
                               = c_maxLength c - jsLength (c_ellipsis c)).
  { exists (drop avail (chars t)). split; [by rewrite take_drop|].
    rewrite length_take. lia. }
  destruct Hfull as (rest0 & Hsplit0 & Hlen0).
  assert (Hch : chars (sliceTo avail t) = take avail (chars t))
    by (unfold sliceTo; apply chars_ofChars).
  rewrite Hch.
  assert (Hplain : exists p rest,
            chars t = p ++ rest /\
            Returned (trim (sliceTo avail t) ++ c_ellipsis c)%string
            = Returned (trim (ofChars p) ++ c_ellipsis c)%string /\
            (Z.of_nat (length p) = c_maxLength c - jsLength (c_ellipsis c) \/
             (c_wordBoundary c = true /\
              Z.of_nat (length p) < c_maxLength c - jsLength (c_ellipsis c) /\
              exists sepc rest', rest = sepc :: rest' /\ c_separators c sepc = true))).
  { exists (take avail (chars t)), rest0. split; [done|]. split; [done|by left]. }
  destruct (c_wordBoundary c) eqn:Hwb; cbn [andb]; [|exact Hplain].
  destruct (Z.of_nat avail <? jsLength t); [|exact Hplain].
  destruct (lastSeparatorBelow (c_separators c) (take avail (chars t)) avail) as [i|] eqn:Hsep;
    [|exact Hplain].
  destruct (PrimFloat.ltb _ _); [|exact Hplain].
  apply lastSeparatorBelow_Some in Hsep as (Hi & sepc & Hlook & Hsepc).
  apply lookup_take_Some in Hlook as [Hlook _].
  exists (take i (chars t)), (drop i (chars t)). split; [by rewrite take_drop|].
  split.
  - unfold sliceTo at 1. rewrite Hch, take_take.
    by replace (i `min` avail)%nat with i by lia.
  - right. split; [done|]. split; [rewrite length_take; lia|].
    exists sepc, (drop (S i) (chars t)). split; [|done].
    by apply drop_S.
Qed.

(** X28. The shape of a truncated text.  When the text is longer than
    [maxLength], the ellipsis is shorter than [maxLength] and sentences are
    not preserved, the result is a prefix of the text, trimmed, followed by
    the ellipsis.  The prefix fills the room the ellipsis leaves, unless
    word boundaries are on and it stops earlier, just before a separator. *)
Theorem truncated_shape (t : string) (options : OptionsArg) :
  let c := fullConfig options in
  let room := c_maxLength c - jsLength (c_ellipsis c) in
  c_maxLength c < jsLength t ->
  0 < room ->
  c_preserveSentences c = false ->
  exists p rest,
    chars t = p ++ rest /\
    truncateText (Some t) options
    = Returned (trim (ofChars p) ++ c_ellipsis c)%string /\
    (Z.of_nat (length p) = room \/
     (c_wordBoundary c = true /\ Z.of_nat (length p) < room /\
      exists sepc rest', rest = sepc :: rest' /\ c_separators c sepc = true)).
Proof. apply truncated_shape_cases. Qed.

Lemma truncated_shape_witness :
  exists p rest,
    chars "This is a long sentence" = p ++ rest /\
    truncateText (Some "This is a long sentence") (LegacyLength 10)
    = Returned (trim (ofChars p) ++ c_ellipsis (fullConfig (LegacyLength 10)))%string /\
    (Z.of_nat (length p) = 10 - 3 \/
     (c_wordBoundary (fullConfig (LegacyLength 10)) = true /\ Z.of_nat (length p) < 10 - 3 /\
      exists sepc rest', rest = sepc :: rest'
                         /\ c_separators (fullConfig (LegacyLength 10)) sepc = true)).
Proof.
  apply (truncated_shape "This is a long sentence" (LegacyLength 10)).
  - vm_compute. reflexivity.
  - vm_compute. reflexivity.
  - reflexivity.
Defined.

(** X29. The legacy truncation returns a text that fits unchanged and
    otherwise appends "..." to the first [maxLength] characters, trimmed:
    for a [maxLength] that is not negative its result has at most
    [maxLength + 3] characters. *)
Theorem truncateTextLegacy_bound (t : string) (maxLen : option Z) :
  let m := default 150 maxLen in
  (jsLength t <= m -> truncateTextLegacy t maxLen = t) /\
  (0 <= m -> m < jsLength t ->
   truncateTextLegacy t maxLen = (trim (sliceTo (Z.to_nat m) t) ++ "...")%string /\
   jsLength (truncateTextLegacy t maxLen) <= m + 3).
Proof.
  cbn zeta. unfold truncateTextLegacy. cbn zeta. split.
  - intros Hle. apply Z.leb_le in Hle. by rewrite Hle.
  - intros Hm Hlt. destruct (Z.leb_spec (jsLength t) (default 150 maxLen)) as [|_]; [lia|].
    unfold sliceToZ. destruct (Z.ltb_spec (default 150 maxLen) 0) as [|_]; [lia|].
    split; [done|]. rewrite jsLength_app.
    pose proof (jsLength_trim (sliceTo (Z.to_nat (default 150 maxLen)) t)) as H1.
    pose proof (jsLength_sliceTo (Z.to_nat (default 150 maxLen)) t) as H2.
    change (jsLength "...") with 3. lia.
Qed.

Lemma truncateTextLegacy_bound_witness :
  (jsLength "This is a long sentence" <= 10 ->
   truncateTextLegacy "This is a long sentence" (Some 10) = "This is a long sentence") /\
  (0 <= 10 -> 10 < jsLength "This is a long sentence" ->
   truncateTextLegacy "This is a long sentence" (Some 10)
   = (trim (sliceTo (Z.to_nat 10) "This is a long sentence") ++ "...")%string /\
   jsLength (truncateTextLegacy "This is a long sentence" (Some 10)) <= 10 + 3).
Proof. apply (truncateTextLegacy_bound "This is a long sentence" (Some 10)). Defined.

Lemma append_empty_r s : (s ++ "")%string = s.
Proof.
  induction s as [|c s IH]; [reflexivity|].
  change (String c (s ++ "") = String c s)%string. by rewrite IH.
Qed.

Lemma lastSentenceEndFrom_Some l : forall i j,
  lastSentenceEndFrom i l = Some j ->
  exists k c, j = S (i + k) /\ l !! k = Some c /\ sentenceEnder c = true.
Proof.
  induction l as [|d l IH]; intros i j; cbn [lastSentenceEndFrom]; [done|].
  destruct (lastSentenceEndFrom (S i) l) as [j'|] eqn:E.
  - intros [= <-]. destruct (IH _ _ E) as (k & c & -> & Hk & Hc).
    exists (S k), c. split; [lia|]. by split.
  - destruct (sentenceEnder d) eqn:Hd; [|done]. intros [= <-].
    exists 0%nat, d. split; [lia|]. by split.
Qed.

Lemma sentenceEnder_cases c :
  sentenceEnder c = true ->
  isSpace c = false /\ (c = "." \/ c = "!" \/ c = "?")%char.
Proof.
  destruct c as [[] [] [] [] [] [] [] []]; vm_compute; intros H;
    try discriminate H; split; auto.
Qed.

Lemma dropSpace_snoc l c :
  isSpace c = false -> exists l', dropSpace (l ++ [c]) = l' ++ [c].
Proof.
  intros Hc. induction l as [|d l (l' & IH)]; cbn.
  - rewrite Hc. by exists [].
  - destruct (isSpace d); [by exists l'|]. by exists (d :: l).
Qed.

(** A trimmed string ends with the character its source ends with, when
    that character is not a blank. *)
Lemma trim_last l c :
  isSpace c = false -> endsWith c (trim (ofChars (l ++ [c]))) = true.
Proof.
  intros Hc. unfold endsWith, trim. rewrite !chars_ofChars, rev_involutive.
  destruct (dropSpace_snoc l c Hc) as (l' & ->).
  rewrite rev_app_distr. cbn. rewrite Hc. apply Ascii.eqb_refl.
Qed.

(** X30. Every truncated text is a prefix of the text, trimmed, that fits
    the room the ellipsis leaves.  It is followed by the ellipsis, except
    when sentences are preserved and the cut falls after a sentence: the
    result then ends with the [.], [!] or [?] of that sentence and carries
    no ellipsis. *)
Theorem truncated_is_trimmed_prefix (t : string) (options : OptionsArg) :
  let c := fullConfig options in
  let room := c_maxLength c - jsLength (c_ellipsis c) in
  c_maxLength c < jsLength t ->
  0 < room ->
  exists p rest,
    chars t = p ++ rest /\ Z.of_nat (length p) <= room /\
    (truncateText (Some t) options
     = Returned (trim (ofChars p) ++ c_ellipsis c)%string \/
     (c_preserveSentences c = true /\
      endsSentence (trim (ofChars p)) = true /\
      truncateText (Some t) options = Returned (trim (ofChars p)))).
Proof.
  cbn zeta. set (c := fullConfig options). intros Hlong Hroom.
  destruct (c_preserveSentences c) eqn:Hps.
  2:{ destruct (truncated_shape_cases t options Hlong Hroom Hps) as (p & rest & Hsplit & Hres & Hp).
      exists p, rest. split; [done|]. split; [|by left].
      fold c in Hp. destruct Hp as [Hp|(_ & Hp & _)]; lia. }
  pose proof (jsLength_nonneg (c_ellipsis c)) as Hell.
  unfold truncateText. fold c.
  destruct (Z.ltb_spec (c_maxLength c) 0) as [|_]; [lia|].
  destruct (Z.eqb_spec (c_maxLength c) 0) as [|_]; [lia|].
  unfold truncateTextImpl. rewrite Hps.
  destruct (Z.leb_spec (jsLength t) (c_maxLength c)) as [|_]; [lia|]. cbn zeta.
  set (avail := Z.to_nat (Z.max 0 (c_maxLength c - jsLength (c_ellipsis c)))).
  assert (Havail : Z.of_nat avail = c_maxLength c - jsLength (c_ellipsis c))
    by (unfold avail; lia).
  destruct (Nat.eqb_spec avail 0) as [|_]; [lia|].
  assert (Hlen : (avail < length (chars t))%nat).
  { rewrite length_chars. unfold jsLength in Hlong. lia. }
  assert (Hch : chars (sliceTo avail t) = take avail (chars t))
    by (unfold sliceTo; apply chars_ofChars).
  rewrite Hch.
  assert (Hword : forall q, (exists i, q = sliceTo i t /\ (i <= avail)%nat) ->
            exists p rest,
              chars t = p ++ rest /\
              Z.of_nat (length p) <= c_maxLength c - jsLength (c_ellipsis c) /\
              (Returned (trim q ++ c_ellipsis c)%string
               = Returned (trim (ofChars p) ++ c_ellipsis c)%string \/
               (true = true /\ endsSentence (trim (ofChars p)) = true /\
                Returned (trim q ++ c_ellipsis c)%string = Returned (trim (ofChars p))))).
  { intros q (i & -> & Hi). exists (take i (chars t)), (drop i (chars t)).
    split; [by rewrite take_drop|]. split; [rewrite length_take; lia|by left]. }
  assert (Hcut : forall i, (i <= avail)%nat -> sliceTo i (sliceTo avail t) = sliceTo i t).
  { intros i Hi. unfold sliceTo at 1. rewrite Hch, take_take.
    by replace (i `min` avail)%nat with i by lia. }
  destruct (lastSentenceEndFrom 0 (take avail (chars t))) as [j|] eqn:Hj.
  - destruct (PrimFloat.ltb _ _).
    + apply lastSentenceEndFrom_Some in Hj as (k & e & -> & Hk & He).
      apply lookup_take_Some in Hk as [Hk Hlt]. cbn [Nat.add].
      rewrite Hcut by lia.
      apply sentenceEnder_cases in He as [Hsp Hend].
      assert (Hp : take (S k) (chars t) = take k (chars t) ++ [e])
        by (by apply take_S_r).
      assert (Hes : endsSentence (trim (sliceTo (S k) t)) = true).
      { unfold sliceTo. rewrite Hp. pose proof (trim_last (take k (chars t)) e Hsp) as Hl.
        unfold endsSentence. destruct Hend as [-> | [-> | ->]]; rewrite Hl;
          by rewrite ?orb_true_r. }
      rewrite Hes. exists (take (S k) (chars t)), (drop (S k) (chars t)).
      split; [by rewrite take_drop|]. split; [rewrite length_take; lia|].
      right. split; [done|]. split; [exact Hes|].
      f_equal. apply append_empty_r.
    + destruct (c_wordBoundary c && _).
      * destruct (lastSeparatorBelow _ _ _) as [i|] eqn:Hsep; [|apply Hword; by exists avail].
        destruct (PrimFloat.ltb _ _); [|apply Hword; by exists avail].
        apply lastSeparatorBelow_Some in Hsep as (Hi & _).
        rewrite Hcut by lia. apply Hword. exists i. split; [done|lia].
      * apply Hword. by exists avail.
  - destruct (c_wordBoundary c && _).
    + destruct (lastSeparatorBelow _ _ _) as [i|] eqn:Hsep; [|apply Hword; by exists avail].
      destruct (PrimFloat.ltb _ _); [|apply Hword; by exists avail].
      apply lastSeparatorBelow_Some in Hsep as (Hi & _).
      rewrite Hcut by lia. apply Hword. exists i. split; [done|lia].
    + apply Hword. by exists avail.
Qed.

Lemma truncated_is_trimmed_prefix_witness :
  let t := "First sentence. Second sentence. Third one." in
  let o := Options (mkTruncateOptions (Some 30) None None (Some true) None) in
  exists p rest,
    chars t = p ++ rest /\ Z.of_nat (length p) <= 30 - 3 /\
    (truncateText (Some t) o
     = Returned (trim (ofChars p) ++ c_ellipsis (fullConfig o))%string \/
     (c_preserveSentences (fullConfig o) = true /\
      endsSentence (trim (ofChars p)) = true /\
      truncateText (Some t) o = Returned (trim (ofChars p)))).
Proof.
  apply (truncated_is_trimmed_prefix "First sentence. Second sentence. Third one."
           (Options (mkTruncateOptions (Some 30) None None (Some true) None))).
  - vm_compute. reflexivity.
  - vm_compute. reflexivity.
Defined.

End TruncateProps.
